(** * Terrain: the world-generation pipeline, embedded and verified

    A shallow embedding of the generation code of the fantasy-map generator
    ([src/lib/generation/*.ts]) together with the properties of its
    specification.

    Conventions of the embedding.
    - Cell indices and grid dimensions are [nat]; signed coordinates and
      integer layers ([Uint8Array], [Int8Array], counters) are [Z].
    - A typed array is a [list]; a read [a[i]] is stdpp's [a !! i], so a read
      out of range is [None] (JavaScript's [undefined], for which every
      comparison of the source is false).
    - The 32-bit arithmetic of the generator ([Math.imul], [^], [>>>], [|]) is
      written out on [Z] modulo [2^32].
    - Real-valued quantities (heights, scores, costs) are exact rationals [Q]:
      the rounding of binary64/binary32 arithmetic is not modelled.  Square
      roots only ever feed comparisons in the modelled code; a comparison
      [sqrt a < b] is carried out exactly on the squares. *)

From Stdlib Require Import ZArith QArith Qabs Qminmax Qround Lia Bool String Ascii.
From stdpp Require Import base decidable option list numbers gmap sorting.

Local Open Scope Z_scope.

(** ** Numeric helpers *)

Module Num.

(** [ToUint32]: reduction modulo 2^32. *)
Definition u32 (z : Z) : Z := z mod 4294967296.

(** [ToInt32]: the signed representative of [z] modulo 2^32. *)
Definition toInt32 (z : Z) : Z := (z + 2147483648) mod 4294967296 - 2147483648.

(** [Math.imul(a, b)], on unsigned representatives. *)
Definition imul (a b : Z) : Z := u32 (u32 a * u32 b).

(** Round a non-negative integer to 53 significant bits, ties to even: the
    binary64 value of an integer product. *)
Definition round53 (n : Z) : Z :=
  let bits := Z.log2 n + 1 in
  if bits <=? 53 then n
  else
    let sh := bits - 53 in
    let q := Z.shiftr n sh in
    let r := n - Z.shiftl q sh in
    let half := Z.shiftl 1 (sh - 1) in
    let q' := if (half <? r) || ((r =? half) && Z.odd q) then q + 1 else q in
    Z.shiftl q' sh.

(** [Math.floor((u / 4294967296) * k)] for a 32-bit draw [u] and an integer
    [k >= 0]: the quotient [u / 2^32] is exact, the product is rounded once. *)
Definition mulFloor (u k : Z) : Z := round53 (u * k) / 4294967296.

(** [Math.sqrt(n) < m], decided exactly: [m] must be positive and [n < m^2]. *)
Definition sqrt_lt (n : Z) (m : Q) : bool :=
  match Qlt_le_dec 0 m with
  | left _ => if Qlt_le_dec (inject_Z n) (m * m) then true else false
  | right _ => false
  end.

Definition Qltb (a b : Q) : bool := if Qlt_le_dec a b then true else false.
Definition Qleb (a b : Q) : bool := if Qlt_le_dec b a then false else true.

(** [Math.sqrt(a) < m] for a real [a >= 0], decided exactly on the squares. *)
Definition sqrtQ_lt (a m : Q) : bool := Qltb 0 m && Qltb a (m * m).

End Num.

(** ** Deterministic pseudorandom number generator ([prng.ts]) *)

Module PRNG.
Import Num.

(** The object's only field, [state].  It is a JavaScript number that
    [next] increments without wrapping; the bit operations reduce it. *)
Definition t := Z.

(** [hashString]: [hash = ((hash << 5) - hash) + char; hash = hash & hash]. *)
Definition hashStep (hash : Z) (c : ascii) : Z :=
  toInt32 (toInt32 (hash * 32) - hash + Z.of_nat (nat_of_ascii c)).

Fixpoint hashLoop (hash : Z) (str : string) : Z :=
  match str with
  | EmptyString => hash
  | String c rest => hashLoop (hashStep hash c) rest
  end.

Definition hashString (str : string) : Z :=
  let h := Z.abs (hashLoop 0 str) in
  if h =? 0 then 1 else h.

(** [new PRNG(seed)] for a numeric seed, and for a string seed. *)
Definition ofNumber (seed : Z) : t := if seed =? 0 then 1 else seed.
Definition ofString (seed : string) : t := ofNumber (hashString seed).

(** [next()]: returns the 32-bit numerator [u] of the result [u / 2^32] and
    the advanced generator. *)
Definition next (g : t) : Z * t :=
  let s := g + 1831565813 (* 0x6D2B79F5 *) in
  let t0 := u32 s in
  let t1 := imul (Z.lxor t0 (Z.shiftr t0 15)) (Z.lor t0 1) in
  let t2 := Z.lxor t1 (u32 (t1 + imul (Z.lxor t1 (Z.shiftr t1 7)) (Z.lor t1 61))) in
  (Z.lxor t2 (Z.shiftr t2 14), s).

(** [next()] as the rational it denotes. *)
Definition unit_of (u : Z) : Q := u # 4294967296.

(** [chance(p)]: [next() < p]. *)
Definition chance (p : Q) (g : t) : bool * t :=
  let '(u, g') := next g in (Qltb (unit_of u) p, g').

(** [range(min, max)]: [min + next() * (max - min)]. *)
Definition range (lo hi : Q) (g : t) : Q * t :=
  let '(u, g') := next g in ((lo + unit_of u * (hi - lo))%Q, g').

(** [Math.floor(next() * n)], the index drawn by [pick], by the shuffles and
    by the city sampler. *)
Definition index (n : Z) (g : t) : Z * t :=
  let '(u, g') := next g in (mulFloor u n, g').

(** [pick(array)]. *)
Definition pick {A} (d : A) (l : list A) (g : t) : A * t :=
  let '(i, g') := index (Z.of_nat (length l)) g in (nth (Z.to_nat i) l d, g').

(** [fork()]: [new PRNG(Math.floor(this.next() * 2147483647))]. *)
Definition fork (g : t) : t * t :=
  let '(u, g') := next g in (ofNumber (mulFloor u 2147483647), g').

(** [int(min, max)]: [Math.floor(this.range(min, max + 1))]. *)
Definition int (lo hi : Z) (g : t) : Z * t :=
  let '(r, g') := range (inject_Z lo) (inject_Z (hi + 1)) g in (Qfloor r, g').

(** [[array[i], array[j]] = [array[j], array[i]]]: both reads come first,
    then the write at [i], then the write at [j]. *)
Definition swap {A} (i j : nat) (array : list A) : list A :=
  match array !! i, array !! j with
  | Some ai, Some aj => <[j := ai]> (<[i := aj]> array)
  | _, _ => array
  end.

(** The loop [for (let i = ...; i > 0; i--)] of [shuffle], from [i] down:
    [j = Math.floor(this.next() * (i + 1))], then the swap. *)
Fixpoint shuffleFrom {A} (i : nat) (array : list A) (g : t) : list A * t :=
  match i with
  | O => (array, g)
  | S i' =>
      let '(j, g') := index (Z.of_nat i + 1) g in
      shuffleFrom i' (swap i (Z.to_nat j) array) g'
  end.

(** [shuffle(array)]. *)
Definition shuffle {A} (array : list A) (g : t) : list A * t :=
  shuffleFrom (length array - 1) array g.

End PRNG.

(** ** Core types ([types.ts]) *)

Inductive Biome :=
  | Ocean | Beach | Lake | Snow | Tundra | Taiga | Grassland
  | TemperateForest | Rainforest | Desert | Savanna | MountainRock.

(** The numeric value of the enumeration, as stored in the biome layer. *)
Definition biomeId (b : Biome) : Z :=
  match b with
  | Ocean => 0 | Beach => 1 | Lake => 2 | Snow => 3 | Tundra => 4 | Taiga => 5
  | Grassland => 6 | TemperateForest => 7 | Rainforest => 8 | Desert => 9
  | Savanna => 10 | MountainRock => 11
  end.

Inductive CityType := capital | city | town | port.

Record Point := { px : Z; py : Z }.

Record City := {
  id : Z;
  x : Z;
  y : Z;
  size : Q;
  type : CityType;
  name : string;
}.

Record Road := {
  fromCityId : Z;
  toCityId : Z;
  path : list Point;
}.

Record MapSettings := {
  width : Z;
  height : Z;
  seed : string;
  seaLevel : Q;
}.

Record ContinentSettings := {
  continentCountMin : Z;
  continentCountMax : Z;
  seedSpacing : Q;
  maskFalloff : Q;
  coastlineNoiseFreq : Q;
  coastlineNoiseAmp : Q;
  archipelagoChance : Q;
}.

Record ElevationSettings := {
  baseNoiseFreq : Q;
  baseNoiseOctaves : Z;
  baseNoisePersistence : Q;
  ridgeNoiseFreq : Q;
  ridgeNoiseOctaves : Z;
  ridgeStrength : Q;
  mountainRangeCountMin : Z;
  mountainRangeCountMax : Z;
  mountainRangeWidth : Q;
  mountainRangeHeight : Q;
  mountainRangeCurviness : Q;
  erosionThermalIterations : Z;
}.

Record HydrologySettings := {
  rainfallBias : Q;
  riverSourceCount : Z;
  riverMinAccum : Q;
  lakeFillEnabled : bool;
  hydraulicErosionDrops : Z;
  hydraulicErosionEnabled : bool;
}.

Record ClimateSettings := {
  latitudeTempStrength : Q;
  elevationTempStrength : Q;
  windDirectionDegrees : Q;
  rainShadowStrength : Q;
  moistureFromWaterStrength : Q;
}.

Record BiomeSettings := {
  desertMoistureMax : Q;
  snowTempMax : Q;
  mountainElevationMin : Q;
  beachElevationRange : Q;
}.

Record ForestSettings := {
  forestsEnabled : bool;
  densityNoiseFreq : Q;
  densityThreshold : Q;
  moistureInfluence : Q;
  riverProximityBoost : Q;
}.

Record CitySettings := {
  citiesEnabled : bool;
  count : Z;
  minSpacing : Z;
  coastPreference : Q;
  riverPreference : Q;
  flatPreference : Q;
}.

Record RoadSettings := {
  roadsEnabled : bool;
  maxConnectionsPerCity : Z;
  costElevation : Q;
  costWater : Q;
  costForest : Q;
  costMountain : Q;
}.

(** The generation-relevant part of [Settings]; the [render] and
    [performance] sub-records are never read by the pipeline. *)
Record Settings := {
  map : MapSettings;
  continents : ContinentSettings;
  elevation : ElevationSettings;
  hydrology : HydrologySettings;
  climate : ClimateSettings;
  biomes : BiomeSettings;
  forests : ForestSettings;
  cities : CitySettings;
  roads : RoadSettings;
}.

Definition DEFAULT_SETTINGS : Settings := {|
  map := {| width := 512; height := 384; seed := "fantasy-world"; seaLevel := 4 # 10 |};
  continents := {|
    continentCountMin := 2; continentCountMax := 5; seedSpacing := 25 # 100;
    maskFalloff := 2; coastlineNoiseFreq := 4; coastlineNoiseAmp := 15 # 100;
    archipelagoChance := 1 # 10 |};
  elevation := {|
    baseNoiseFreq := 2; baseNoiseOctaves := 6; baseNoisePersistence := 1 # 2;
    ridgeNoiseFreq := 3; ridgeNoiseOctaves := 4; ridgeStrength := 3 # 10;
    mountainRangeCountMin := 3; mountainRangeCountMax := 8;
    mountainRangeWidth := 8 # 100; mountainRangeHeight := 4 # 10;
    mountainRangeCurviness := 1 # 2; erosionThermalIterations := 5 |};
  hydrology := {|
    rainfallBias := 1 # 2; riverSourceCount := 50; riverMinAccum := 100;
    lakeFillEnabled := true; hydraulicErosionDrops := 0;
    hydraulicErosionEnabled := false |};
  climate := {|
    latitudeTempStrength := 7 # 10; elevationTempStrength := 1 # 2;
    windDirectionDegrees := 270; rainShadowStrength := 3 # 10;
    moistureFromWaterStrength := 1 # 2 |};
  biomes := {|
    desertMoistureMax := 2 # 10; snowTempMax := 15 # 100;
    mountainElevationMin := 75 # 100; beachElevationRange := 5 # 100 |};
  forests := {|
    forestsEnabled := true; densityNoiseFreq := 8; densityThreshold := 4 # 10;
    moistureInfluence := 6 # 10; riverProximityBoost := 2 # 10 |};
  cities := {|
    citiesEnabled := true; count := 20; minSpacing := 30;
    coastPreference := 15 # 10; riverPreference := 2; flatPreference := 1 |};
  roads := {|
    roadsEnabled := true; maxConnectionsPerCity := 3; costElevation := 2;
    costWater := 100; costForest := 15 # 10; costMountain := 5 |};
|}.

(** [WorldData].  The flow accumulation layer holds cell counts. *)
Record DebugLayers := {
  continentId : list Z;
  mountainMask : list Z;
  lakeMask : list Z;
}.

Record WorldData := {
  w_width : Z;
  w_height : Z;
  heightMap : list Q;
  landMask : list Z;
  temperature : list Q;
  moisture : list Q;
  biome : list Z;
  flowDir : list Z;
  flowAccum : list Z;
  rivers : list Z;
  forest : list Z;
  w_cities : list City;
  w_roads : list Road;
  debug : DebugLayers;
}.

(** ** The pipeline orchestrator ([index.ts]) *)

Module Pipeline.

(** A call either returns or throws; the orchestrator has no [try]. *)
Inductive result (A : Type) :=
  | Ok (a : A)
  | Throw (e : string).
Arguments Ok {A} a.
Arguments Throw {A} e.

(** What a run does besides computing its result: the calls of the progress
    callback, and the calls of the stage functions. *)
Inductive Event :=
  | Progress (stage : string) (percent : Z)
  | Invoke (fn : string).

(** Computations of the orchestrator: a trace of events and an outcome. *)
Definition M (A : Type) : Type := list Event * result A.

#[global] Instance M_ret : MRet M := fun A (a : A) => ([], Ok a).

#[global] Instance M_bind : MBind M := fun A B (f : A -> M B) (m : M A) =>
  match m with
  | (t, Ok a) => let '(t', r) := f a in (t ++ t', r)
  | (t, Throw e) => (t, Throw e)
  end.

(** [onProgress?.(stage, percent)]: nothing happens without a callback. *)
Definition onProgress (hasCallback : bool) (stage : string) (percent : Z) : M unit :=
  (if hasCallback then [Progress stage percent] else [], Ok tt).

(** A call of the stage function [fn]. *)
Definition call {A} (fn : string) (r : result A) : M A := ([Invoke fn], r).

Record ContinentSeed := {
  cs_x : Q;
  cs_y : Q;
  cs_radius : Q;
  cs_id : Z;
}.

Record MountainRange := {
  mr_points : list (Q * Q);
  mr_width : Q;
  mr_height : Q;
}.

(** The stage functions the orchestrator imports.  Each takes the layers it
    is passed and the sub-records of [settings] that its body destructures
    (named in the comment of each field); a forked generator is passed as its
    initial state. *)
Class Stages := {
  SimplexNoise : Type;
  (** [new SimplexNoise(prng)] *)
  newSimplexNoise : PRNG.t -> SimplexNoise;
  (** reads [settings.map], [settings.continents] *)
  generateContinentSeeds :
    MapSettings -> ContinentSettings -> PRNG.t -> result (list ContinentSeed);
  (** reads [settings.map], [settings.continents] *)
  generateContinentMask :
    MapSettings -> ContinentSettings -> list ContinentSeed -> SimplexNoise ->
    PRNG.t -> result (list Z * list Z);
  (** reads [settings.map], [settings.elevation] *)
  generateMountainRanges :
    MapSettings -> ElevationSettings -> list Z -> PRNG.t ->
    result (list MountainRange);
  (** reads [settings.map], [settings.elevation] *)
  generateHeightMap :
    MapSettings -> ElevationSettings -> list Z -> list MountainRange ->
    SimplexNoise -> PRNG.t -> result (list Q * list Z);
  calculateFlowDirection : list Q -> list Z -> Z -> Z -> result (list Z);
  calculateFlowAccumulation : list Z -> list Z -> Z -> Z -> result (list Z);
  (** reads [settings.hydrology] *)
  generateRivers :
    list Z -> list Z -> list Z -> list Q -> HydrologySettings -> Z -> Z ->
    result (list Z);
  (** reads [settings.hydrology] *)
  detectLakes :
    list Q -> list Z -> list Z -> HydrologySettings -> Z -> Z -> result (list Z);
  calculateWaterDistance : list Z -> list Z -> list Z -> Z -> Z -> result (list Q);
  (** reads [settings.climate], [settings.map] *)
  generateTemperature :
    list Q -> list Z -> ClimateSettings -> MapSettings -> Z -> Z ->
    SimplexNoise -> result (list Q);
  (** reads [settings.climate], [settings.hydrology] *)
  generateMoisture :
    list Q -> list Z -> list Q -> ClimateSettings -> HydrologySettings ->
    Z -> Z -> SimplexNoise -> result (list Q);
  (** reads [settings.biomes], [settings.map] *)
  classifyBiomes :
    list Q -> list Z -> list Z -> list Q -> list Q -> BiomeSettings ->
    MapSettings -> Z -> Z -> result (list Z);
  (** reads [settings.forests] *)
  generateForests :
    list Z -> list Q -> list Q -> ForestSettings -> Z -> Z -> SimplexNoise ->
    result (list Z);
  (** reads [settings.cities] *)
  placeCities :
    list Q -> list Z -> list Z -> list Z -> CitySettings -> Z -> Z -> PRNG.t ->
    result (list City);
  (** reads [settings.roads], [settings.map]; allocates no typed array and
      all its loops are bounded: it always returns *)
  generateRoads :
    list City -> list Q -> list Z -> list Z -> RoadSettings -> MapSettings ->
    Z -> Z -> list Road;
}.

Section Orchestrator.
Context {st : Stages}.

Definition generateWorld (settings : Settings) (hasCallback : bool) : M WorldData :=
  let width := width (map settings) in
  let height := height (map settings) in
  let prng := PRNG.ofString (seed (map settings)) in
  onProgress hasCallback "Initializing..." 0;;
  (* Step 1: continents *)
  onProgress hasCallback "Generating continents..." 5;;
  let '(f1, prng) := PRNG.fork prng in
  continentSeeds ← call "generateContinentSeeds"
    (generateContinentSeeds (map settings) (continents settings) f1);
  let '(f2, prng) := PRNG.fork prng in
  let '(f3, prng) := PRNG.fork prng in
  lc ← call "generateContinentMask"
    (generateContinentMask (map settings) (continents settings) continentSeeds
       (newSimplexNoise f2) f3);
  let '(landMask, continentId) := lc in
  (* Step 2: elevation and mountains *)
  onProgress hasCallback "Building mountains..." 15;;
  let '(f4, prng) := PRNG.fork prng in
  mountainRanges ← call "generateMountainRanges"
    (generateMountainRanges (map settings) (elevation settings) landMask f4);
  let '(f5, prng) := PRNG.fork prng in
  let '(f6, prng) := PRNG.fork prng in
  hm ← call "generateHeightMap"
    (generateHeightMap (map settings) (elevation settings) landMask mountainRanges
       (newSimplexNoise f5) f6);
  let '(heightMap, mountainMask) := hm in
  (* Step 3: hydrology *)
  onProgress hasCallback "Simulating water flow..." 30;;
  flowDir ← call "calculateFlowDirection"
    (calculateFlowDirection heightMap landMask width height);
  flowAccum ← call "calculateFlowAccumulation"
    (calculateFlowAccumulation flowDir landMask width height);
  rivers ← call "generateRivers"
    (generateRivers flowAccum flowDir landMask heightMap (hydrology settings)
       width height);
  onProgress hasCallback "Detecting lakes..." 40;;
  lakeMask ← call "detectLakes"
    (detectLakes heightMap landMask flowDir (hydrology settings) width height);
  waterDistance ← call "calculateWaterDistance"
    (calculateWaterDistance landMask rivers lakeMask width height);
  (* Step 4: climate *)
  onProgress hasCallback "Calculating climate..." 50;;
  let '(f7, prng) := PRNG.fork prng in
  temperature ← call "generateTemperature"
    (generateTemperature heightMap landMask (climate settings) (map settings)
       width height (newSimplexNoise f7));
  let '(f8, prng) := PRNG.fork prng in
  moisture ← call "generateMoisture"
    (generateMoisture heightMap landMask waterDistance (climate settings)
       (hydrology settings) width height (newSimplexNoise f8));
  (* Step 5: biomes *)
  onProgress hasCallback "Assigning biomes..." 60;;
  biome ← call "classifyBiomes"
    (classifyBiomes heightMap landMask lakeMask temperature moisture
       (biomes settings) (map settings) width height);
  (* Step 6: forests *)
  onProgress hasCallback "Growing forests..." 70;;
  let '(f9, prng) := PRNG.fork prng in
  forest ← call "generateForests"
    (generateForests biome moisture waterDistance (forests settings) width height
       (newSimplexNoise f9));
  (* Step 7: cities *)
  onProgress hasCallback "Founding cities..." 80;;
  let '(f10, prng) := PRNG.fork prng in
  cities ← call "placeCities"
    (placeCities heightMap landMask biome rivers (cities settings) width height f10);
  (* Step 8: roads *)
  onProgress hasCallback "Building roads..." 90;;
  roads ← call "generateRoads"
    (Ok (generateRoads cities heightMap landMask forest (roads settings)
           (map settings) width height));
  onProgress hasCallback "Complete!" 100;;
  mret {|
    w_width := width;
    w_height := height;
    heightMap := heightMap;
    landMask := landMask;
    temperature := temperature;
    moisture := moisture;
    biome := biome;
    flowDir := flowDir;
    flowAccum := flowAccum;
    rivers := rivers;
    forest := forest;
    w_cities := cities;
    w_roads := roads;
    debug := {| continentId := continentId; mountainMask := mountainMask;
                lakeMask := lakeMask |};
  |}.

(** The result of a run, and the calls it made. *)
Definition outcome {A} (m : M A) : result A := snd m.
Definition trace {A} (m : M A) : list Event := fst m.

(** Everything of a snapshot except its road list. *)
Definition withoutRoads (w : WorldData) : WorldData :=
  {| w_width := w_width w; w_height := w_height w; heightMap := heightMap w;
     landMask := landMask w; temperature := temperature w;
     moisture := moisture w; biome := biome w; flowDir := flowDir w;
     flowAccum := flowAccum w; rivers := rivers w; forest := forest w;
     w_cities := w_cities w; w_roads := []; debug := debug w |}.

Definition mapResult {A B} (f : A -> B) (r : result A) : result B :=
  match r with Ok a => Ok (f a) | Throw e => Throw e end.

(** [settings] with its [roads] sub-record replaced. *)
Definition withRoadSettings (s : Settings) (r : RoadSettings) : Settings :=
  {| map := map s; continents := continents s; elevation := elevation s;
     hydrology := hydrology s; climate := climate s; biomes := biomes s;
     forests := forests s; cities := cities s; roads := r |}.

(** The invalid configurations of the specification. *)
Definition invalidConfiguration (s : Settings) : Prop :=
  width (map s) <= 0 \/ height (map s) <= 0 \/
  continentCountMin (continents s) > continentCountMax (continents s) \/
  mountainRangeCountMin (elevation s) > mountainRangeCountMax (elevation s) \/
  (seaLevel (map s) <= 0)%Q \/ (1 <= seaLevel (map s))%Q.

(** Failing fast: an error is raised and no stage function was called. *)
Definition failsFast (s : Settings) (hasCallback : bool) : Prop :=
  (exists e, outcome (generateWorld s hasCallback) = Throw e) /\
  forall fn, Invoke fn ∉ trace (generateWorld s hasCallback).

(** The stage calls of a trace, in order. *)
Definition stageCalls (t : list Event) : list string :=
  omap (fun e => match e with Invoke fn => Some fn | Progress _ _ => None end) t.

End Orchestrator.

(** The stage functions in the order in which a complete run calls them. *)
Definition allStages : list string :=
  [ "generateContinentSeeds"; "generateContinentMask"; "generateMountainRanges";
    "generateHeightMap"; "calculateFlowDirection"; "calculateFlowAccumulation";
    "generateRivers"; "detectLakes"; "calculateWaterDistance";
    "generateTemperature"; "generateMoisture"; "classifyBiomes";
    "generateForests"; "placeCities"; "generateRoads" ]%string.

(** The default settings with the continent count range inverted. *)
Definition invertedCounts : Settings :=
  {| map := map DEFAULT_SETTINGS;
     continents := {|
       continentCountMin := 5; continentCountMax := 2; seedSpacing := 25 # 100;
       maskFalloff := 2; coastlineNoiseFreq := 4; coastlineNoiseAmp := 15 # 100;
       archipelagoChance := 1 # 10 |};
     elevation := elevation DEFAULT_SETTINGS; hydrology := hydrology DEFAULT_SETTINGS;
     climate := climate DEFAULT_SETTINGS; biomes := biomes DEFAULT_SETTINGS;
     forests := forests DEFAULT_SETTINGS; cities := cities DEFAULT_SETTINGS;
     roads := roads DEFAULT_SETTINGS |}.
End Pipeline.

(** ** Simplex noise: the tables ([noise.ts]) *)

Module Noise.

(** Gradient vectors for 2D. *)
Definition GRAD2 : list (Z * Z) :=
  [(1, 1); (-1, 1); (1, -1); (-1, -1); (1, 0); (-1, 0); (0, 1); (0, -1)].

Record SimplexNoise := {
  perm : list Z;
  permMod8 : list Z;
}.

(** [new SimplexNoise(prng)]: the identity table [p] is shuffled with the
    generator (the loop of [PRNG.shuffle], written out in the constructor,
    from [i = 255] down), then doubled into [perm], and
    [permMod8[i] = perm[i] % 8].  The generator is left advanced. *)
Definition newSimplexNoise (prng : PRNG.t) : SimplexNoise * PRNG.t :=
  let '(p, prng) := PRNG.shuffleFrom 255 (seqZ 0 256) prng in
  let perm :=
    List.map (fun i => default 0 (p !! Z.to_nat (Z.land i 255))) (seqZ 0 512) in
  ({| perm := perm; permMod8 := List.map (fun v => v mod 8) perm |}, prng).

(** The hashed gradient of a corner of the simplex cell [(i, j)] in
    [noise2D]: [GRAD2[permMod8[ii + i1 + perm[jj + j1]]]] with [ii = i & 255]
    and [jj = j & 255]; the three corners have the offsets [(0, 0)],
    [(i1, j1)] and [(1, 1)].  [None] is a read outside a table. *)
Definition cornerGradient (noise : SimplexNoise) (i j i1 j1 : Z) : option (Z * Z) :=
  let ii := Z.land i 255 in
  let jj := Z.land j 255 in
  v ← perm noise !! Z.to_nat (jj + j1);
  gi ← permMod8 noise !! Z.to_nat (ii + i1 + v);
  GRAD2 !! Z.to_nat gi.

End Noise.

(** ** Continent seeds ([continents.ts]) *)

Module Continents.
Import Num Pipeline.

Section GenerateContinentSeeds.
Variables (mapSettings : MapSettings) (settings : ContinentSettings).

(** [Math.min(width, height)] *)
Definition minSide : Q := inject_Z (Z.min (width mapSettings) (height mapSettings)).

Definition minDist : Q := (minSide * seedSpacing settings)%Q.

(** [Math.sqrt(dx * dx + dy * dy) < minDist] *)
Definition tooNear (x y : Q) (seed : ContinentSeed) : bool :=
  let dx := (x - cs_x seed)%Q in
  let dy := (y - cs_y seed)%Q in
  sqrtQ_lt (dx * dx + dy * dy) minDist.

(** The candidate point of an iteration, drawn inside the given margin. *)
Definition drawPoint (margin : Q) (prng : PRNG.t) : Q * Q * PRNG.t :=
  let w := inject_Z (width mapSettings) in
  let h := inject_Z (height mapSettings) in
  let '(x, prng) := PRNG.range (w * margin) (w * (1 - margin)) prng in
  let '(y, prng) := PRNG.range (h * margin) (h * (1 - margin)) prng in
  (x, y, prng).

(** The first loop: [while (seeds.length < count && attempts < maxAttempts)];
    [attemptsLeft] is [maxAttempts - attempts]. *)
Fixpoint placeSpaced (attemptsLeft : nat) (count : Z) (seeds : list ContinentSeed)
    (prng : PRNG.t) : list ContinentSeed * PRNG.t :=
  match attemptsLeft with
  | O => (seeds, prng)
  | S attemptsLeft' =>
      if Z.of_nat (length seeds) <? count then
        let '(x, y, prng) := drawPoint (1 # 10) prng in
        if existsb (tooNear x y) seeds
        then placeSpaced attemptsLeft' count seeds prng
        else
          let '(r, prng) := PRNG.range (15 # 100) (35 # 100) prng in
          placeSpaced attemptsLeft' count
            (seeds ++ [{| cs_x := x; cs_y := y; cs_radius := (minSide * r)%Q;
                          cs_id := Z.of_nat (length seeds) + 1 |}])
            prng
      else (seeds, prng)
  end.

(** The second loop: [while (seeds.length < count)], which places the rest
    without the spacing check.  Every iteration adds a seed, so [count]
    iterations are budget enough. *)
Fixpoint placeRest (fuel : nat) (count : Z) (seeds : list ContinentSeed)
    (prng : PRNG.t) : list ContinentSeed * PRNG.t :=
  match fuel with
  | O => (seeds, prng)
  | S fuel' =>
      if Z.of_nat (length seeds) <? count then
        let '(x, y, prng) := drawPoint (15 # 100) prng in
        let '(r, prng) := PRNG.range (1 # 10) (25 # 100) prng in
        placeRest fuel' count
          (seeds ++ [{| cs_x := x; cs_y := y; cs_radius := (minSide * r)%Q;
                        cs_id := Z.of_nat (length seeds) + 1 |}])
          prng
      else (seeds, prng)
  end.

Definition generateContinentSeeds (prng : PRNG.t) : list ContinentSeed :=
  let '(count, prng) :=
    PRNG.int (continentCountMin settings) (continentCountMax settings) prng in
  let '(seeds, prng) := placeSpaced 1000 count [] prng in
  fst (placeRest (Z.to_nat count) count seeds prng).

End GenerateContinentSeeds.
End Continents.

(** ** Hydrology ([hydrology.ts]) *)

Module Hydrology.

(** Direction vectors for 8-way movement. *)
Definition DX : list Z := [0; 1; 1; 1; 0; -1; -1; -1].
Definition DY : list Z := [-1; -1; 0; 1; 1; 1; 0; -1].

(** The index [ny * width + nx] of the cell at [(nx, ny)], when
    [nx >= 0 && nx < width && ny >= 0 && ny < height]. *)
Definition cellAt (width height : nat) (nx ny : Z) : option nat :=
  if (0 <=? nx) && (nx <? Z.of_nat width) && (0 <=? ny) && (ny <? Z.of_nat height)
  then Some (Z.to_nat (ny * Z.of_nat width + nx))
  else None.

(** The neighbour of cell [i] ([x = i % width], [y = Math.floor(i / width)])
    in direction [dir], when [dir >= 0] and the neighbour is on the map.  A
    direction beyond the tables reads [undefined] and fails the bounds test. *)
Definition neighbour (width height : nat) (i : nat) (dir : Z) : option nat :=
  if dir <? 0 then None
  else
    match DX !! Z.to_nat dir, DY !! Z.to_nat dir with
    | Some dx, Some dy =>
        cellAt width height (Z.of_nat (i mod width) + dx) (Z.of_nat (i / width) + dy)
    | _, _ => None
    end.

Section FlowDirection.
Variables (heightMap : list Q) (landMask : list Z) (width height : nat).

(** The square of [dist]: 1 for the even directions, 2 for the diagonals. *)
Definition distSquared (d : nat) : Q := if Nat.even d then 1%Q else 2%Q.

(** One iteration of the loop over the eight neighbours of cell [idx].  The
    state is [(steepestDir, steepestSlope^2)]: the slopes kept are never
    negative, so [slope > steepestSlope] holds exactly when the neighbour is
    lower and the squares compare the same way. *)
Definition steepen (idx : nat) (st : Z * Q) (d : nat) : Z * Q :=
  match DX !! d, DY !! d with
  | Some dx, Some dy =>
      match cellAt width height (Z.of_nat (idx mod width) + dx)
                   (Z.of_nat (idx / width) + dy) with
      | Some nidx =>
          match heightMap !! idx, heightMap !! nidx with
          | Some currentHeight, Some neighborHeight =>
              let diff := (currentHeight - neighborHeight)%Q in
              let slopeSq := (diff * diff / distSquared d)%Q in
              if Num.Qltb 0 diff && Num.Qltb (snd st) slopeSq
              then (Z.of_nat d, slopeSq) else st
          | _, _ => st
          end
      | None => st
      end
  | _, _ => st
  end.

Definition steepestDir (idx : nat) : Z :=
  fst (foldl (steepen idx) (-1, 0%Q) (seq 0 8)).

(** [calculateFlowDirection]: water cells keep the initial [-1]. *)
Definition calculateFlowDirection : list Z :=
  List.map (fun idx => if bool_decide (landMask !! idx = Some 0) then -1
                       else steepestDir idx)
           (seq 0 (width * height)).

End FlowDirection.

Section FlowAccumulation.
Variables (flowDir landMask : list Z) (width height : nat).

(** The cell that cell [i] drains into, as both loops compute it. *)
Definition outflow (i : nat) : option nat :=
  match flowDir !! i with
  | Some dir => neighbour width height i dir
  | None => None
  end.

(** One iteration of the loop that builds the dependency graph. *)
Definition countInflow (inDegree : list Z) (i : nat) : list Z :=
  match landMask !! i with
  | Some 0 => inDegree
  | _ =>
      match outflow i with
      | Some n => alter Z.succ n inDegree
      | None => inDegree
      end
  end.

Definition buildInDegree (size : nat) : list Z :=
  foldl countInflow (replicate size 0) (seq 0 size).

(** The source cells: land cells with no incoming flow, in index order. *)
Definition isSource (inDegree : list Z) (i : nat) : bool :=
  bool_decide (landMask !! i = Some 1) && bool_decide (inDegree !! i = Some 0).

Definition sources (inDegree : list Z) (size : nat) : list nat :=
  filter (fun i => isSource inDegree i = true) (seq 0 size).

(** The loop that processes the queue.  [None] when the iteration budget
    runs out with cells still queued. *)
Fixpoint drain (fuel : nat) (queue : list nat) (flowAccum inDegree : list Z)
  : option (list Z) :=
  match queue with
  | [] => Some flowAccum
  | idx :: rest =>
      match fuel with
      | O => None
      | S fuel' =>
          match outflow idx with
          | None => drain fuel' rest flowAccum inDegree
          | Some nidx =>
              let flowAccum' :=
                alter (fun a => a + default 0 (flowAccum !! idx)) nidx flowAccum in
              let inDegree' := alter Z.pred nidx inDegree in
              let queue' :=
                if bool_decide (inDegree' !! nidx = Some 0)
                   && bool_decide (landMask !! nidx = Some 1)
                then rest ++ [nidx] else rest in
              drain fuel' queue' flowAccum' inDegree'
          end
      end
  end.

(** [calculateFlowAccumulation].  A cell enters the queue at most once, so
    one iteration per cell is budget enough. *)
Definition calculateFlowAccumulation : option (list Z) :=
  let size := (width * height)%nat in
  let inDegree := buildInDegree size in
  drain size (sources inDegree size) (replicate size 1) inDegree.

(** Cell [i] is a land cell whose flow direction points into cell [j]. *)
Definition flowsInto (i j : nat) : bool :=
  bool_decide (landMask !! i = Some 1) && bool_decide (outflow i = Some j).

(** The sum of the accumulations of the land cells that flow into [j]. *)
Definition inflow (flowAccum : list Z) (j : nat) : Z :=
  foldr Z.add 0
    (List.map (fun i => if flowsInto i j then default 0 (flowAccum !! i) else 0)
              (seq 0 (width * height))).

End FlowAccumulation.

(** *** Water distance *)

(** A stored distance.  The step costs are [1] and [Math.SQRT2]; distances
    are sums of them and are kept exactly, counted in units of [2^-52], in
    which both costs are integers.  Neither the rounding of the sums nor that
    of the stores into the [Float32Array] is modelled; [Infinity], the guard
    [maxDist > 0] and the clamp [Math.min(1, _)] are. *)
Inductive Dist :=
  | At (units : Z)
  | Unreached.   (* Infinity *)

Definition unit : Z := 4503599627370496.        (* 1 *)
Definition SQRT2 : Z := 6369051672525773.       (* Math.SQRT2 = 0x3FF6A09E667F3BCD *)

(** An entry of the returned layer. *)
Inductive Num :=
  | Fin (q : Q)
  | Infinity.

Section WaterDistance.
Variables (landMask rivers lakeMask : list Z) (width height : nat).

(** [landMask[idx] === 0 || rivers[idx] > 0 || lakeMask[idx] === 1] *)
Definition isWater (idx : nat) : bool :=
  bool_decide (landMask !! idx = Some 0)
  || match rivers !! idx with Some r => 0 <? r | None => false end
  || bool_decide (lakeMask !! idx = Some 1).

Definition initDistance (size : nat) : list Dist :=
  List.map (fun idx => if isWater idx then At 0 else Unreached) (seq 0 size).

(** The initial queue, in the order of the row-major scan. *)
Definition initQueue (size : nat) : list (Z * Z * Z) :=
  List.map (fun idx => (Z.of_nat (idx mod width), Z.of_nat (idx / width), 0))
    (filter (fun idx => isWater idx = true) (seq 0 size)).

(** [newDist < distance[nidx]] *)
Definition closer (newDist : Z) (old : option Dist) : bool :=
  match old with
  | Some (At d) => newDist <? d
  | Some Unreached => true
  | None => false
  end.

(** [dist > distance[idx]] *)
Definition stale (dist : Z) (cur : option Dist) : bool :=
  match cur with
  | Some (At d) => d <? dist
  | _ => false
  end.

(** The body of the loop over the eight directions. *)
Definition relax (x y dist : Z) (st : list Dist * list (Z * Z * Z)) (d : nat)
  : list Dist * list (Z * Z * Z) :=
  let '(distance, queue) := st in
  match DX !! d, DY !! d with
  | Some dx, Some dy =>
      let nx := x + dx in
      let ny := y + dy in
      match cellAt width height nx ny with
      | Some nidx =>
          let stepDist := if Nat.even d then unit else SQRT2 in
          let newDist := dist + stepDist in
          if closer newDist (distance !! nidx)
          then (<[nidx := At newDist]> distance, queue ++ [(nx, ny, newDist)])
          else st
      | None => st
      end
  | _, _ => st
  end.

(** The breadth-first loop; [None] when the budget runs out first. *)
Fixpoint bfs (fuel : nat) (queue : list (Z * Z * Z)) (distance : list Dist)
  : option (list Dist) :=
  match queue with
  | [] => Some distance
  | (x, y, dist) :: rest =>
      match fuel with
      | O => None
      | S fuel' =>
          let idx := Z.to_nat (y * Z.of_nat width + x) in
          if stale dist (distance !! idx) then bfs fuel' rest distance
          else
            let '(distance', queue') :=
              foldl (relax x y dist) (distance, rest) (seq 0 8) in
            bfs fuel' queue' distance'
      end
  end.

(** The largest finite distance. *)
Definition maxDist (distance : list Dist) : Z :=
  foldl (fun m d => match d with At u => Z.max m u | Unreached => m end) 0 distance.

(** [Math.min(1, distance[i] / maxDist)] *)
Definition normalize (m : Z) (d : Dist) : Num :=
  match d with
  | At u => Fin (Qmin 1 (u # Z.to_pos m))
  | Unreached => Fin 1
  end.

(** A stored distance as a number. *)
Definition toNum (d : Dist) : Num :=
  match d with
  | At u => Fin (u # Z.to_pos unit)
  | Unreached => Infinity
  end.

Definition calculateWaterDistance (fuel : nat) : option (list Num) :=
  let size := (width * height)%nat in
  match bfs fuel (initQueue size) (initDistance size) with
  | Some distance =>
      let m := maxDist distance in
      if 0 <? m then Some (List.map (normalize m) distance)
      else Some (List.map toNum distance)
  | None => None
  end.

End WaterDistance.

(** An entry lies in [[0,1]]. *)
Definition inUnitInterval (v : Num) : Prop :=
  match v with
  | Fin q => (0 <= q)%Q /\ (q <= 1)%Q
  | Infinity => False
  end.

(** *** Rivers *)

Section GenerateRivers.
(** [Math.floor(Math.log(x) * 50)], for the arguments [x > 1] that the code
    passes when [riverMinAccum] is positive. *)
Variable logIntensity : Q -> Z.
Variables (flowAccum landMask : list Z) (settings : HydrologySettings).
Variables (width height : nat).

(** The entry written for cell [i]; the array starts out as zeros. *)
Definition riverAt (i : nat) : Z :=
  match landMask !! i, flowAccum !! i with
  | Some 1, Some a =>
      if Num.Qleb (riverMinAccum settings) (inject_Z a) then
        let intensity :=
          Z.min 255 (logIntensity (inject_Z a / riverMinAccum settings + 1)) in
        Z.max 1 intensity
      else 0
  | _, _ => 0
  end.

Definition generateRivers : list Z := List.map riverAt (seq 0 (width * height)).

End GenerateRivers.

(** *** Lakes *)

Section DetectLakes.
Variables (heightMap : list Q) (landMask flowDir : list Z).
Variables (settings : HydrologySettings) (width height : nat).

(** One iteration of the loop over the eight neighbours of [(cx, cy)]: a
    land neighbour that has not been visited is queued. *)
Definition pushNeighbour (cx cy : Z) (visited : gset nat) (queue : list nat) (d : nat)
  : list nat :=
  match DX !! d, DY !! d with
  | Some dx, Some dy =>
      match cellAt width height (cx + dx) (cy + dy) with
      | Some nidx =>
          if bool_decide (landMask !! nidx = Some 1) && negb (bool_decide (nidx ∈ visited))
          then queue ++ [nidx] else queue
      | None => queue
      end
  | _, _ => queue
  end.

(** [heightMap[current] <= lakeHeight + 0.02]; false when either is missing. *)
Definition admits (lakeHeight : option Q) (current : nat) : bool :=
  match heightMap !! current, lakeHeight with
  | Some h, Some l => Num.Qleb h (l + (2 # 100))
  | _, _ => false
  end.

(** The flood fill from one sink:
    [while (queue.length > 0 && lakeSize < maxLakeSize)], with
    [maxLakeSize = 100].  [None] when the iteration budget runs out first. *)
Fixpoint fill (fuel : nat) (lakeHeight : option Q) (queue : list nat)
    (visited : gset nat) (lakeSize : nat) (lakeMask : list Z) : option (list Z) :=
  match queue with
  | [] => Some lakeMask
  | current :: rest =>
      if (100 <=? lakeSize)%nat then Some lakeMask
      else
        match fuel with
        | O => None
        | S fuel' =>
            if bool_decide (current ∈ visited)
            then fill fuel' lakeHeight rest visited lakeSize lakeMask
            else
              let visited := {[ current ]} ∪ visited in
              let cx := Z.of_nat (current mod width) in
              let cy := Z.of_nat (current / width) in
              if admits lakeHeight current then
                fill fuel' lakeHeight
                  (foldl (pushNeighbour cx cy visited) rest (seq 0 8))
                  visited (S lakeSize) (<[current := 1]> lakeMask)
              else fill fuel' lakeHeight rest visited lakeSize lakeMask
        end
  end.

(** A cell is visited at most once and queues at most eight cells, so nine
    iterations per cell and one more are budget enough. *)
Definition fillBudget : nat := 9 * (width * height) + 1.

(** The body of the loops for the cell [idx]: a land cell without outflow
    starts a fill. *)
Definition fillFrom (lakeMask : list Z) (idx : nat) : option (list Z) :=
  if bool_decide (landMask !! idx = Some 0) then Some lakeMask
  else if match flowDir !! idx with Some dir => 0 <=? dir | None => false end
  then Some lakeMask
  else fill fillBudget (heightMap !! idx) [idx] ∅ 0 lakeMask.

(** The cells [y * width + x] with [1 <= y < height - 1] and
    [1 <= x < width - 1], in the order of the loops. *)
Definition interior : list nat :=
  flat_map (fun y => List.map (fun x => y * width + x)%nat (seq 1 (width - 2)))
           (seq 1 (height - 2)).

Definition detectLakes : option (list Z) :=
  let lakeMask := replicate (width * height) 0 in
  if negb (lakeFillEnabled settings) then Some lakeMask
  else foldl (fun acc idx => acc ≫= fun lakeMask => fillFrom lakeMask idx)
             (Some lakeMask) interior.

End DetectLakes.

End Hydrology.

(** ** Biome classification ([biomes.ts]) *)

Module Biomes.
Import Num.

(** Comparisons of JavaScript numbers; [None] stands for [undefined]/[NaN],
    which compare false with everything. *)
Definition jsLt (a b : option Q) : bool :=
  match a, b with
  | Some a, Some b => Qltb a b
  | _, _ => false
  end.

Definition jsGe (a b : option Q) : bool :=
  match a, b with
  | Some a, Some b => Qleb b a
  | _, _ => false
  end.

(** What the classifier looks at in one cell. *)
Record Cell := {
  land : option Z;        (* landMask[idx] *)
  lake : option Z;        (* lakeMask[idx] *)
  landElev : option Q;    (* (elev - seaLevel) / (1 - seaLevel) *)
  nearOcean : bool;       (* a water cell within checkRadius = 3 *)
  temp : option Q;        (* temperature[idx] *)
  moist : option Q;       (* moisture[idx] *)
}.

Section Classify.
Variable settings : BiomeSettings.

Let desertMoistureMax := Some (desertMoistureMax settings).
Let snowTempMax := snowTempMax settings.
Let mountainElevationMin := Some (mountainElevationMin settings).
Let beachElevationRange := Some (beachElevationRange settings).

(** The body of the loop, for one cell. *)
Definition classifyCell (c : Cell) : Biome :=
  if bool_decide (land c = Some 0) then Ocean
  else if bool_decide (lake c = Some 1) then Lake
  else if jsLt (landElev c) beachElevationRange && nearOcean c then Beach
  else if jsGe (landElev c) mountainElevationMin then
    if jsLt (temp c) (Some (snowTempMax * (15 # 10))%Q) then Snow else MountainRock
  else if jsLt (temp c) (Some snowTempMax) then Snow
  else if jsLt (temp c) (Some (snowTempMax * 2)%Q) then
    if jsLt (moist c) (Some (3 # 10)) then Tundra else Taiga
  else if jsLt (temp c) (Some (5 # 10)) then
    if jsLt (moist c) desertMoistureMax then Grassland
    else if jsLt (moist c) (Some (5 # 10)) then Grassland
    else TemperateForest
  else if jsLt (temp c) (Some (75 # 100)) then
    if jsLt (moist c) desertMoistureMax then Desert
    else if jsLt (moist c) (Some (4 # 10)) then Savanna
    else if jsLt (moist c) (Some (7 # 10)) then Grassland
    else TemperateForest
  else
    if jsLt (moist c) desertMoistureMax then Desert
    else if jsLt (moist c) (Some (35 # 100)) then Savanna
    else if jsLt (moist c) (Some (6 # 10)) then Grassland
    else Rainforest.

(** The contract of the specification, written as a decision table: the
    rules in their documented order, each a condition and the biome it
    assigns; the first rule whose condition holds decides. *)
Definition isWaterCell (c : Cell) : bool := bool_decide (land c = Some 0).
Definition isLakeCell (c : Cell) : bool := bool_decide (lake c = Some 1).
Definition isBeach (c : Cell) : bool :=
  jsLt (landElev c) beachElevationRange && nearOcean c.
Definition isHigh (c : Cell) : bool := jsGe (landElev c) mountainElevationMin.
Definition tempBelow (q : Q) (c : Cell) : bool := jsLt (temp c) (Some q).
Definition moistBelow (q : option Q) (c : Cell) : bool := jsLt (moist c) q.
Definition always (c : Cell) : bool := true.

Definition both (p q : Cell -> bool) (c : Cell) : bool := p c && q c.

Definition rules : list ((Cell -> bool) * Biome) :=
  let cold := tempBelow snowTempMax in
  let cool := tempBelow (snowTempMax * 2)%Q in
  let temperate := tempBelow (5 # 10) in
  let warm := tempBelow (75 # 100) in
  [ (isWaterCell, Ocean);
    (isLakeCell, Lake);
    (isBeach, Beach);
    (both isHigh (tempBelow (snowTempMax * (15 # 10))%Q), Snow);
    (isHigh, MountainRock);
    (cold, Snow);
    (both cool (moistBelow (Some (3 # 10))), Tundra);
    (cool, Taiga);
    (both temperate (moistBelow desertMoistureMax), Grassland);
    (both temperate (moistBelow (Some (5 # 10))), Grassland);
    (temperate, TemperateForest);
    (both warm (moistBelow desertMoistureMax), Desert);
    (both warm (moistBelow (Some (4 # 10))), Savanna);
    (both warm (moistBelow (Some (7 # 10))), Grassland);
    (warm, TemperateForest);
    (moistBelow desertMoistureMax, Desert);
    (moistBelow (Some (35 # 100)), Savanna);
    (moistBelow (Some (6 # 10)), Grassland);
    (always, Rainforest) ].

Fixpoint firstMatch (rs : list ((Cell -> bool) * Biome)) (c : Cell) : option Biome :=
  match rs with
  | [] => None
  | (cond, b) :: rest => if cond c then Some b else firstMatch rest c
  end.

End Classify.

Section ClassifyBiomes.
Variables (heightMap : list Q) (landMask lakeMask : list Z).
Variables (temperature moisture : list Q).
Variables (settings : BiomeSettings) (mapSettings : MapSettings).
Variables (width height : nat).

(** The scan of the 7x7 window around [(x, y)] for a cell with
    [landMask === 0]. *)
Definition checkNearOcean (x y : Z) : bool :=
  existsb (fun dy =>
    existsb (fun dx =>
      match Hydrology.cellAt width height (x + dx) (y + dy) with
      | Some n => bool_decide (landMask !! n = Some 0)
      | None => false
      end) (seqZ (-3) 7)) (seqZ (-3) 7).

(** The inputs of the decision at cell [idx = y * width + x]. *)
Definition cellOf (idx : nat) : Cell :=
  let seaLevel := seaLevel mapSettings in
  {| land := landMask !! idx;
     lake := lakeMask !! idx;
     landElev := (fun elev => (elev - seaLevel) / (1 - seaLevel))%Q <$> heightMap !! idx;
     nearOcean := checkNearOcean (Z.of_nat (idx mod width)) (Z.of_nat (idx / width));
     temp := temperature !! idx;
     moist := moisture !! idx |}.

(** [classifyBiomes]: the nested loops over [y] and [x] visit the indices
    [y * width + x] in increasing order and write each entry once. *)
Definition classifyBiomes : list Z :=
  List.map (fun idx => biomeId (classifyCell settings (cellOf idx)))
    (seq 0 (width * height)).

End ClassifyBiomes.
End Biomes.

(** ** City placement and roads ([cities.ts]) *)

Module Cities.
Import Num.

(** Reads of the real-valued and intensity layers.  The layers are taken to
    cover the grid, as the orchestrator builds them; a missing entry reads as
    zero here. *)
Definition readQ (a : list Q) (i : nat) : Q := default 0%Q (a !! i).
Definition readZ (a : list Z) (i : nat) : Z := default 0 (a !! i).

(** *** Names *)

Definition NAME_PREFIXES : list string :=
  ["New"; "Old"; "East"; "West"; "North"; "South"; "Great"; "Little"; "Upper";
   "Lower"]%string.

Definition NAME_ROOTS : list string :=
  ["haven"; "port"; "ford"; "bridge"; "burg"; "ton"; "ville"; "dale"; "wood";
   "field"; "castle"; "keep"; "hold"; "watch"; "guard"; "stone"; "rock";
   "cliff"; "hill"; "mount"; "river"; "lake"; "bay"; "cove"; "shore"; "marsh";
   "glen"; "vale"; "moor"; "heath"]%string.

Definition NAME_SUFFIXES : list string :=
  ["ia"; "heim"; "grad"; "opolis"; "minster"; "wick"; "worth"; "stead"; ""]%string.

(** [root.charAt(0).toUpperCase() + root.slice(1)] on ASCII words. *)
Definition capitalize (s : string) : string :=
  match s with
  | EmptyString => EmptyString
  | String c rest =>
      let n := nat_of_ascii c in
      String (if (97 <=? n)%nat && (n <=? 122)%nat then ascii_of_nat (n - 32) else c)
             rest
  end.

Definition generateCityName (prng : PRNG.t) : string * PRNG.t :=
  let '(usePrefix, prng) := PRNG.chance (2 # 10) prng in
  let '(useSuffix, prng) := PRNG.chance (5 # 10) prng in
  let '(name, prng) :=
    if usePrefix
    then let '(p, prng) := PRNG.pick ""%string NAME_PREFIXES prng in
         ((p ++ " ")%string, prng)
    else (""%string, prng) in
  let '(root, prng) := PRNG.pick ""%string NAME_ROOTS prng in
  let name := (name ++ capitalize root)%string in
  if useSuffix
  then let '(sfx, prng) := PRNG.pick ""%string NAME_SUFFIXES prng in
       ((name ++ sfx)%string, prng)
  else (name, prng).

(** *** Suitability *)

(** Biomes suitable for cities. *)
Definition CITY_BIOMES : list Biome := [Beach; Grassland; TemperateForest; Savanna; Taiga].

Definition inCityBiomes (b : option Z) : bool :=
  match b with
  | Some v => existsb (fun c => biomeId c =? v) CITY_BIOMES
  | None => false
  end.

Section Grid.
Variables (heightMap : list Q) (landMask biome rivers : list Z).
Variables (width height : nat).

Definition cellAt := Hydrology.cellAt width height.

(** The eight offsets of the loops [dy = -1..1], [dx = -1..1] that skip
    [(0, 0)], in the order the loops visit them. *)
Definition around : list (Z * Z) :=
  [(-1, -1); (0, -1); (1, -1); (-1, 0); (1, 0); (-1, 1); (0, 1); (1, 1)].

Definition calculateSlope (x y : Z) : Q :=
  if (x <=? 0) || (Z.of_nat width - 1 <=? x) || (y <=? 0) || (Z.of_nat height - 1 <=? y)
  then 1%Q
  else
    let h := readQ heightMap (Z.to_nat (y * Z.of_nat width + x)) in
    foldl (fun maxDiff '(dx, dy) =>
             let nidx := Z.to_nat ((y + dy) * Z.of_nat width + (x + dx)) in
             Qmax maxDiff (Qabs (readQ heightMap nidx - h)))
          0%Q around.

(** Some cell of the square window of the given radius satisfies [p]. *)
Definition windowExists (radius : Z) (p : nat -> bool) (x y : Z) : bool :=
  existsb (fun dy =>
    existsb (fun dx =>
      match cellAt (x + dx) (y + dy) with
      | Some n => p n
      | None => false
      end) (seqZ (- radius) (2 * radius + 1))) (seqZ (- radius) (2 * radius + 1)).

(** [isNearCoast] with its default radius of 5. *)
Definition isNearCoast (x y : Z) : bool :=
  windowExists 5 (fun n => bool_decide (landMask !! n = Some 0)) x y.

Definition hasRiverAt (n : nat) : bool :=
  match rivers !! n with Some r => 0 <? r | None => false end.

Section PlaceCities.
Variable settings : CitySettings.

(** One iteration of the scoring loops, at cell [idx = y * width + x]. *)
Definition scoreCell (st : list Q * PRNG.t) (idx : nat) : list Q * PRNG.t :=
  let '(scores, prng) := st in
  let x := Z.of_nat (idx mod width) in
  let y := Z.of_nat (idx / width) in
  if bool_decide (landMask !! idx = Some 0) then (scores, prng)
  else if negb (inCityBiomes (biome !! idx)) then (scores, prng)
  else
    let score := 1%Q in
    let slope := calculateSlope x y in
    let score := (score + (1 - slope * 10) * flatPreference settings)%Q in
    let score :=
      if isNearCoast x y then (score + coastPreference settings)%Q else score in
    let score :=
      if hasRiverAt idx then (score + riverPreference settings)%Q
      else if windowExists 3 hasRiverAt x y
           then (score + riverPreference settings * (5 # 10))%Q
           else score in
    let '(u, prng) := PRNG.next prng in
    let score := (score + PRNG.unit_of u * (5 # 10))%Q in
    (<[idx := Qmax 0 score]> scores, prng).

Definition computeScores (prng : PRNG.t) : list Q * PRNG.t :=
  let size := (width * height)%nat in
  foldl scoreCell (replicate size 0%Q, prng) (seq 0 size).

(** Squared distance between two cells given by index. *)
Definition distSq (x y cx cy : Z) : Z := (x - cx) ^ 2 + (y - cy) ^ 2.

(** [Math.sqrt(n) < minSpacing] for the integer spacing. *)
Definition closerThan (n : Z) (minSpacing : Z) : bool :=
  (0 <? minSpacing) && (n <? minSpacing * minSpacing).

(** The spacing check against the cities placed so far. *)
Definition tooClose (placed : list Z) (x y : Z) : bool :=
  existsb (fun cityIdx =>
             let cx := Z.rem cityIdx (Z.of_nat width) in
             let cy := cityIdx / Z.of_nat width in
             closerThan (distSq x y cx cy) (minSpacing settings))
          placed.

(** The state of the sampling loop: [bestIdx], [bestScore] and the generator. *)
Definition sampleStep (scores : list Q) (placed : list Z)
    (st : Z * Q * PRNG.t) (_ : nat) : Z * Q * PRNG.t :=
  let '(bestIdx, bestScore, prng) := st in
  let '(idx, prng) := PRNG.index (Z.of_nat (width * height)) prng in
  let s := readQ scores (Z.to_nat idx) in
  if Qleb s bestScore then (bestIdx, bestScore, prng)
  else
    let x := Z.rem idx (Z.of_nat width) in
    let y := idx / Z.of_nat width in
    if tooClose placed x y then (bestIdx, bestScore, prng)
    else (idx, s, prng).

Definition findBest (scores : list Q) (placed : list Z) (prng : PRNG.t)
  : Z * Q * PRNG.t :=
  let sampleCount := Nat.min 1000 (width * height) in
  foldl (sampleStep scores placed) (-1, 0%Q, prng) (seq 0 sampleCount).

(** The loop that zeroes the scores around a new city. *)
Definition suppress (scores : list Q) (x y : Z) : list Q :=
  let m := minSpacing settings in
  foldl (fun scores dy =>
    foldl (fun scores dx =>
      match cellAt (x + dx) (y + dy) with
      | Some n => if closerThan (dx * dx + dy * dy) m then <[n := 0%Q]> scores else scores
      | None => scores
      end) scores (seqZ (- m) (2 * m + 1))) scores (seqZ (- m) (2 * m + 1)).

(** The city type, drawn after the location is fixed. *)
Definition cityType (i : nat) (x y : Z) (bestIdx : Z) (bestScore : Q) (prng : PRNG.t)
  : CityType * PRNG.t :=
  let isCoastal := isNearCoast x y in
  let hasRiver := hasRiverAt (Z.to_nat bestIdx) in
  if (i =? 0)%nat then (capital, prng)
  else if isCoastal && hasRiver then
    let '(b, prng) := PRNG.chance (7 # 10) prng in ((if b then port else city), prng)
  else if isCoastal then
    let '(b, prng) := PRNG.chance (5 # 10) prng in ((if b then port else city), prng)
  else if Qltb 3 bestScore then (city, prng)
  else (town, prng).

Record PlaceState := {
  ps_cities : list City;
  ps_placed : list Z;
  ps_scores : list Q;
  ps_prng : PRNG.t;
}.

(** One iteration [i] of the placement loop. *)
Definition placeStep (st : PlaceState) (i : nat) : PlaceState :=
  let '(bestIdx, bestScore, prng) :=
    findBest (ps_scores st) (ps_placed st) (ps_prng st) in
  if 0 <=? bestIdx then
    let x := Z.rem bestIdx (Z.of_nat width) in
    let y := bestIdx / Z.of_nat width in
    let '(type, prng) := cityType i x y bestIdx bestScore prng in
    let '(size, prng) :=
      if (i =? 0)%nat then (1%Q, prng) else PRNG.range (3 # 10) (9 # 10) prng in
    let '(name, prng) := generateCityName prng in
    {| ps_cities := ps_cities st ++
         [{| id := Z.of_nat i; x := x; y := y; size := size; type := type;
             name := name |}];
       ps_placed := if bool_decide (bestIdx ∈ ps_placed st) then ps_placed st
                    else ps_placed st ++ [bestIdx];
       ps_scores := suppress (ps_scores st) x y;
       ps_prng := prng |}
  else
    {| ps_cities := ps_cities st; ps_placed := ps_placed st;
       ps_scores := ps_scores st; ps_prng := prng |}.

Definition placeCities (prng : PRNG.t) : list City :=
  if negb (citiesEnabled settings) then []
  else
    let '(scores, prng) := computeScores prng in
    ps_cities
      (foldl placeStep
         {| ps_cities := []; ps_placed := []; ps_scores := scores; ps_prng := prng |}
         (seq 0 (Z.to_nat (count settings)))).

End PlaceCities.
End Grid.

(** *** Path simplification (Ramer-Douglas-Peucker) *)

(** The square of [perpendicularDistance(point, lineStart, lineEnd)].  The
    distances are non-negative and are only compared with one another and
    with [epsilon], so the comparisons are made on the squares. *)
Definition perpendicularDistanceSq (point lineStart lineEnd : Point) : Q :=
  let dx := px lineEnd - px lineStart in
  let dy := py lineEnd - py lineStart in
  let len2 := dx * dx + dy * dy in
  if len2 =? 0 then
    inject_Z ((px point - px lineStart) ^ 2 + (py point - py lineStart) ^ 2)
  else
    let n := dy * px point - dx * py point
             + px lineEnd * py lineStart - py lineEnd * px lineStart in
    (n * n) # (Z.to_pos len2).

(** The scan for the interior point farthest from the chord: the state is
    [(maxDist^2, maxIdx)], the list holds the points from index [i] on. *)
Fixpoint farthest (start end_ : Point) (pts : list Point) (i : nat)
    (best : Q * nat) : Q * nat :=
  match pts with
  | [] => best
  | [_] => best                      (* the last point is not scanned *)
  | p :: rest =>
      let d := perpendicularDistanceSq p start end_ in
      farthest start end_ rest (S i)
        (if Qltb (fst best) d then (d, i) else best)
  end.

Definition dummyPoint : Point := {| px := 0; py := 0 |}.

(** [simplifyPath] with [epsilon = 2]; the recursion is on strictly shorter
    slices, so the length of the path bounds its depth. *)
Fixpoint simplifyPathFuel (fuel : nat) (path : list Point) : list Point :=
  match fuel with
  | O => path
  | S fuel' =>
      if (length path <=? 2)%nat then path
      else
        let start := List.hd dummyPoint path in
        let end_ := List.last path dummyPoint in
        let '(maxDistSq, maxIdx) := farthest start end_ (List.tl path) 1 (0%Q, O) in
        if Qltb 4 maxDistSq then
          let left := simplifyPathFuel fuel' (take (S maxIdx) path) in
          let right := simplifyPathFuel fuel' (drop maxIdx path) in
          List.removelast left ++ right
        else [start; end_]
  end.

Definition simplifyPath (path : list Point) : list Point :=
  simplifyPathFuel (length path) path.

(** *** A-star search *)

Record Node := {
  n_x : Z;
  n_y : Z;
  g : Q;
  f : Q;
  parent : option Z;
}.

(** [Map.get], [Map.set] and [Map.delete] on a map kept in insertion order. *)
Fixpoint mapGet {A} (k : Z) (m : list (Z * A)) : option A :=
  match m with
  | [] => None
  | (k', v) :: rest => if k' =? k then Some v else mapGet k rest
  end.

Fixpoint mapSet {A} (k : Z) (v : A) (m : list (Z * A)) : list (Z * A) :=
  match m with
  | [] => [(k, v)]
  | (k', v') :: rest => if k' =? k then (k, v) :: rest else (k', v') :: mapSet k v rest
  end.

Definition mapDelete {A} (k : Z) (m : list (Z * A)) : list (Z * A) :=
  filter (fun e => fst e <> k) m.

Section FindPath.
Variables (heightMap : list Q) (landMask forest : list Z).
Variables (settings : RoadSettings) (mapSettings : MapSettings).
Variables (width height : nat).
Variables (from to : Point).

Definition heuristic (x y : Z) : Q :=
  inject_Z (Z.abs (x - px to) + Z.abs (y - py to)).

Definition getCost (x y px py : Z) : Q :=
  let idx := Z.to_nat (y * Z.of_nat width + x) in
  if bool_decide (landMask !! idx = Some 0) then costWater settings
  else
    let cost := 1%Q in
    let elev := readQ heightMap idx in
    let prevElev := readQ heightMap (Z.to_nat (py * Z.of_nat width + px)) in
    let cost := (cost + Qabs (elev - prevElev) * costElevation settings * 10)%Q in
    let cost :=
      if Qltb (seaLevel mapSettings + (5 # 10)) elev
      then (cost + costMountain settings)%Q else cost in
    if 0 <? readZ forest idx
    then (cost + costForest settings * (readZ forest idx # 255))%Q
    else cost.

(** The scan for the open node with the lowest [f]; [None] is [Infinity]. *)
Fixpoint lowest (openSet : list (Z * Node)) (currentIdx : Z) (lowestF : option Q) : Z :=
  match openSet with
  | [] => currentIdx
  | (idx, node) :: rest =>
      if match lowestF with Some l => Qltb (f node) l | None => true end
      then lowest rest idx (Some (f node))
      else lowest rest currentIdx lowestF
  end.

(** The reconstruction loop: it follows [parent] through [pathNodes]. *)
Fixpoint tracePath (fuel : nat) (pathNodes : list (Z * Node)) (traceIdx : option Z)
    (path : list Point) : list Point :=
  match fuel, traceIdx with
  | S fuel', Some idx =>
      let p := {| px := Z.rem idx (Z.of_nat width); py := idx / Z.of_nat width |} in
      tracePath fuel' pathNodes
        (match mapGet idx pathNodes with Some node => parent node | None => None end)
        (p :: path)
  | _, _ => path
  end.

(** The raw cell path that the search hands to [simplifyPath]. *)
Definition reconstruct (openSet : list (Z * Node)) (currentIdx : Z) : list Point :=
  tracePath (S (length openSet)) openSet (Some currentIdx) [].

(** One neighbour of the current node. *)
Definition visit (currentIdx : Z) (current : Node) (closedSet : gset Z)
    (openSet : list (Z * Node)) (d : Z * Z) : list (Z * Node) :=
  let '(dx, dy) := d in
  let nx := n_x current + dx in
  let ny := n_y current + dy in
  if (nx <? 0) || (Z.of_nat width <=? nx) || (ny <? 0) || (Z.of_nat height <=? ny)
  then openSet
  else
    let nidx := ny * Z.of_nat width + nx in
    if bool_decide (nidx ∈ closedSet) then openSet
    else
      let moveCost := getCost nx ny (n_x current) (n_y current) in
      let g' := (g current + moveCost)%Q in
      match mapGet nidx openSet with
      | Some existing =>
          if Qleb (g existing) g' then openSet
          else mapSet nidx {| n_x := nx; n_y := ny; g := g'; f := (g' + heuristic nx ny)%Q;
                              parent := Some currentIdx |} openSet
      | None =>
          mapSet nidx {| n_x := nx; n_y := ny; g := g'; f := (g' + heuristic nx ny)%Q;
                         parent := Some currentIdx |} openSet
      end.

(** The main loop; [fuel] counts the iterations left of [maxIterations].
    It yields the raw path on success. *)
Fixpoint search (fuel : nat) (openSet : list (Z * Node)) (closedSet : gset Z)
  : option (list Point) :=
  match fuel, openSet with
  | S fuel', _ :: _ =>
      let currentIdx := lowest openSet (-1) None in
      let endIdx := py to * Z.of_nat width + px to in
      if currentIdx =? endIdx then Some (reconstruct openSet currentIdx)
      else
        match mapGet currentIdx openSet with
        | Some current =>
            let openSet := mapDelete currentIdx openSet in
            let closedSet := {[ currentIdx ]} ∪ closedSet in
            search fuel' (foldl (visit currentIdx current closedSet) openSet around)
                   closedSet
        | None => None
        end
  | _, _ => None
  end.

Definition maxIterations : nat := 100 * 100.

(** The raw A-star path from [from] to [to], before simplification. *)
Definition rawPath : option (list Point) :=
  let startIdx := py from * Z.of_nat width + px from in
  search maxIterations
    [(startIdx, {| n_x := px from; n_y := py from; g := 0;
                   f := heuristic (px from) (py from); parent := None |})]
    ∅.

Definition findPath : option (list Point) := simplifyPath <$> rawPath.

End FindPath.

(** *** Roads *)

Record Pair := {
  p_from : City;
  p_to : City;
  p_distSq : Z;      (* the square of [dist] *)
}.

Definition cityPoint (c : City) : Point := {| px := x c; py := y c |}.

(** The pairs [(cities[i], cities[j])], [i < j], in the order of the loops. *)
Fixpoint allPairs (cities : list City) : list Pair :=
  match cities with
  | [] => []
  | c :: rest =>
      List.map (fun c' => {| p_from := c; p_to := c';
                             p_distSq := (x c - x c') ^ 2 + (y c - y c') ^ 2 |}) rest
      ++ allPairs rest
  end.

(** [pairs.sort((a, b) => a.dist - b.dist)]: the sort is stable, and the
    order of two distances is the order of their squares. *)
Fixpoint insertPair (p : Pair) (l : list Pair) : list Pair :=
  match l with
  | [] => [p]
  | q :: rest => if p_distSq p <? p_distSq q then p :: l else q :: insertPair p rest
  end.

Definition sortPairs (l : list Pair) : list Pair :=
  foldl (fun acc p => insertPair p acc) [] l.

Section GenerateRoads.
Variables (heightMap : list Q) (landMask forest : list Z).
Variables (settings : RoadSettings) (mapSettings : MapSettings).
Variables (width height : nat).

(** One iteration of the loop that connects the pairs. *)
Definition connect (st : list Road * gmap Z Z) (p : Pair) : list Road * gmap Z Z :=
  let '(roads, connections) := st in
  let fromConns := default 0 (connections !! id (p_from p)) in
  let toConns := default 0 (connections !! id (p_to p)) in
  if (maxConnectionsPerCity settings <=? fromConns)
     || (maxConnectionsPerCity settings <=? toConns)
  then st
  else
    match findPath heightMap landMask forest settings mapSettings width height
            (cityPoint (p_from p)) (cityPoint (p_to p)) with
    | Some path =>
        (roads ++ [{| fromCityId := id (p_from p); toCityId := id (p_to p);
                      path := path |}],
         <[id (p_to p) := toConns + 1]> (<[id (p_from p) := fromConns + 1]> connections))
    | None => st
    end.

Definition generateRoads (cities : list City) : list Road :=
  if negb (roadsEnabled settings) || (length cities <? 2)%nat then []
  else fst (foldl connect ([], ∅) (sortPairs (allPairs cities))).

End GenerateRoads.

(** The number of roads that have city [cid] as an endpoint. *)
Definition degree (cid : Z) (roads : list Road) : nat :=
  length (filter (fun r => fromCityId r = cid \/ toCityId r = cid) roads).

(** Two roads join the same unordered pair of cities. *)
Definition samePair (r1 r2 : Road) : Prop :=
  (fromCityId r1 = fromCityId r2 /\ toCityId r1 = toCityId r2) \/
  (fromCityId r1 = toCityId r2 /\ toCityId r1 = fromCityId r2).

End Cities.

(** ** Example inputs *)

(** A strip of five land cells, three cities requested two cells apart. *)
Definition stripSettings : CitySettings :=
  {| citiesEnabled := true; count := 3; minSpacing := 2; coastPreference := 0;
     riverPreference := 0; flatPreference := 0 |}.

Definition stripCities : list City :=
  Cities.placeCities (replicate 5 0%Q) [1; 1; 1; 1; 1] [6; 6; 6; 6; 6]
    [0; 0; 0; 0; 0] 5 1 stripSettings 1.

(** An island of one grassland cell in a 3x3 sea, the default city settings
    and a generator seeded with 9: the nine samples of the first iteration
    all miss the island, the second iteration finds it. *)
Definition islandCities : list City :=
  Cities.placeCities (replicate 9 0%Q) [0; 0; 0; 0; 1; 0; 0; 0; 0]
    [0; 0; 0; 0; 6; 0; 0; 0; 0] (replicate 9 0) 3 3 (cities DEFAULT_SETTINGS)
    (PRNG.ofNumber 9).

(** Two cities at the ends of a strip of four land cells. *)
Definition westCity : City :=
  {| id := 0; x := 0; y := 0; size := 1; type := capital; name := "Westford" |}.
Definition eastCity : City :=
  {| id := 1; x := 3; y := 0; size := 1 # 2; type := town; name := "Eastford" |}.

Definition stripRoads : list Road :=
  Cities.generateRoads (replicate 4 0%Q) [1; 1; 1; 1] [0; 0; 0; 0]
    (roads DEFAULT_SETTINGS) (map DEFAULT_SETTINGS) 4 1 [westCity; eastCity].

(** * Properties *)

(** ** Numbers *)

Lemma Qltb_lt (a b : Q) : Num.Qltb a b = true <-> (a < b)%Q.
Proof.
  unfold Num.Qltb. destruct (Qlt_le_dec a b) as [H|H]; split; intros H'; try easy.
  exfalso. eapply Qle_not_lt; eauto.
Qed.

Lemma Qleb_le (a b : Q) : Num.Qleb a b = true <-> (a <= b)%Q.
Proof.
  unfold Num.Qleb. destruct (Qlt_le_dec b a) as [H|H]; split; intros H'; try easy.
  exfalso. eapply Qle_not_lt; eauto.
Qed.

(** The one product of the generator that binary64 rounds upwards across an
    integer: the floor of the rounded product is not the floor of the exact
    one. *)
Example mulFloor_rounds :
  Num.mulFloor 2147483649 2147483647 = 1073741824 /\
  2147483649 * 2147483647 / 4294967296 = 1073741823.
Proof. split; reflexivity. Qed.

(** The seed of the default settings, and the first fork of its generator. *)
Example hashString_default : PRNG.hashString "fantasy-world" = 897402325.
Proof. reflexivity. Qed.

Example fork_default :
  PRNG.fork (PRNG.ofString "fantasy-world") = (2056355662, 2728968138).
Proof. reflexivity. Qed.

(** ** The orchestrator *)

Section PipelineFacts.
Import Pipeline.
Context {st : Stages}.

Lemma outcome_bind {A B} (m : M A) (k : A -> M B) :
  outcome (m ≫= k) =
  match outcome m with Ok a => outcome (k a) | Throw e => Throw e end.
Proof.
  destruct m as [t [a|e]]; unfold outcome, mbind, M_bind; simpl; [|reflexivity].
  destruct (k a); reflexivity.
Qed.

Lemma trace_bind {A B} (m : M A) (k : A -> M B) :
  trace (m ≫= k) =
  trace m ++ match outcome m with Ok a => trace (k a) | Throw e => [] end.
Proof.
  destruct m as [t [a|e]]; unfold outcome, trace, mbind, M_bind; simpl.
  - destruct (k a); reflexivity.
  - symmetry; apply app_nil_r.
Qed.

Lemma stageCalls_app t1 t2 : stageCalls (t1 ++ t2) = stageCalls t1 ++ stageCalls t2.
Proof. unfold stageCalls. apply omap_app. Qed.

Lemma stageCalls_onProgress cb stage pct :
  stageCalls (trace (onProgress cb stage pct)) = [].
Proof. destruct cb; reflexivity. Qed.

(** Run the orchestrator symbolically: split every generator fork and every
    stage outcome, and let the binds compute. *)
Ltac run_pipeline :=
  repeat first
    [ progress cbn [mbind M_bind onProgress mret M_ret outcome trace fst snd
                    mapResult withRoadSettings map continents elevation hydrology
                    climate biomes forests cities roads]
    | match goal with
      | |- context [PRNG.fork ?p] => destruct (PRNG.fork p) as [? ?]
      | |- context [call ?fn (Ok ?a)] => change (call fn (Ok a)) with ([Invoke fn], Ok a)
      | |- context [call ?fn (Throw ?e)] =>
          change (call fn (@Throw ?A e)) with ([Invoke fn], @Throw A e)
      | |- context [call ?fn ?r] => destruct r as [?|?]
      | |- context [let '(_, _) := ?p in _] => is_var p; destruct p as [? ?]
      end ].



Lemma generateWorld_calls_first_stage (settings : Settings) (cb : bool) :
  Invoke "generateContinentSeeds" ∈ trace (generateWorld settings cb).
Proof.
  unfold generateWorld.
  rewrite !trace_bind.
  destruct cb; cbn [onProgress outcome trace fst snd];
    destruct (PRNG.fork _) as [f1 g1]; rewrite trace_bind;
    cbn [call trace fst]; set_solver.
Qed.


End PipelineFacts.


(** ** Biome classification *)

Section BiomeFacts.
Import Biomes.

Lemma biomeId_inj (b1 b2 : Biome) : biomeId b1 = biomeId b2 -> b1 = b2.
Proof. destruct b1, b2; simpl; intros H; first [reflexivity | discriminate H]. Qed.

(** The decision made by the loop body is the first matching rule of the
    documented table, and some rule always matches. *)
Lemma classifyCell_firstMatch (settings : BiomeSettings) (c : Cell) :
  firstMatch (rules settings) c = Some (classifyCell settings c).
Proof.
  unfold rules, classifyCell, firstMatch, both, isWaterCell, isLakeCell, isBeach,
    isHigh, tempBelow, moistBelow, always.
  cbv zeta.
  repeat match goal with
         | |- context [andb ?a _] => destruct a eqn:?; cbn [andb]
         | |- context [if ?b then _ else _] => destruct b eqn:?
         end; first [reflexivity | congruence].
Qed.

Lemma classifyBiomes_length hm lm lk te mo bs ms (width height : nat) :
  length (classifyBiomes hm lm lk te mo bs ms width height) = (width * height)%nat.
Proof. unfold classifyBiomes. rewrite length_map, length_seq. reflexivity. Qed.



End BiomeFacts.

(** ** City placement *)

Section FoldFacts.
Context {A B : Type}.

Lemma foldl_invariant (P : A -> Prop) (f : A -> B -> A) (l : list B) (a : A) :
  P a -> (forall a b, P a -> P (f a b)) -> P (foldl f a l).
Proof.
  intros Ha Hstep. revert a Ha.
  induction l as [|b l IH]; intros a Ha; simpl; [exact Ha|].
  apply IH, Hstep, Ha.
Qed.

Lemma foldl_seq_invariant (P : nat -> A -> Prop) (f : A -> nat -> A) (n : nat) (a : A) :
  P O a -> (forall i a, (i < n)%nat -> P i a -> P (S i) (f a i)) ->
  P n (foldl f a (seq 0 n)).
Proof.
  intros H0 Hstep. induction n as [|n IH]; [exact H0|].
  rewrite seq_S, foldl_app. simpl. apply Hstep; [lia|].
  apply IH. intros i a' Hi. apply Hstep. lia.
Qed.

End FoldFacts.

Section PlaceCitiesFacts.
Import Cities.
Variables (landMask rivers : list Z).
Variables (width height : nat) (settings : CitySettings).

Local Abbreviation placeStep := (placeStep landMask rivers width height settings).
Local Abbreviation findBest := (findBest width height settings).
Local Abbreviation tooClose := (tooClose width settings).

Lemma closerThan_false (n m : Z) :
  closerThan n m = false <-> m <= 0 \/ m * m <= n.
Proof. unfold closerThan. rewrite andb_false_iff, Z.ltb_ge, Z.ltb_ge. tauto. Qed.

(** The sampling loop only ever keeps an index that passed the spacing
    check. *)
Lemma findBest_spaced (scores : list Q) (placed : list Z) (prng : PRNG.t) :
  let bestIdx := fst (fst (findBest scores placed prng)) in
  bestIdx = -1 \/
  tooClose placed (Z.rem bestIdx (Z.of_nat width)) (bestIdx / Z.of_nat width) = false.
Proof.
  unfold Cities.findBest.
  apply (foldl_invariant
           (fun st : Z * Q * PRNG.t =>
              fst (fst st) = -1 \/
              tooClose placed (Z.rem (fst (fst st)) (Z.of_nat width))
                       (fst (fst st) / Z.of_nat width) = false)).
  - left. reflexivity.
  - intros [[bestIdx bestScore] g] k Hinv. unfold sampleStep.
    cbn [fst] in Hinv.
    destruct (PRNG.index _ g) as [idx g'].
    destruct (Num.Qleb _ bestScore); [exact Hinv|].
    destruct (tooClose placed (Z.rem idx (Z.of_nat width)) (idx / Z.of_nat width))
      eqn:Hclose; [exact Hinv|].
    right. exact Hclose.
Qed.

(** Every city sits on a placed index, and the cities are pairwise spaced. *)
Definition spacedFrom (c : City) (cs : list City) : Prop :=
  forall c', c' ∈ cs ->
    closerThan (distSq (x c) (y c) (x c') (y c')) (minSpacing settings) = false.

Fixpoint pairwiseSpaced (cs : list City) : Prop :=
  match cs with
  | [] => True
  | c :: rest => spacedFrom c rest /\ pairwiseSpaced rest
  end.

Definition onPlaced (st : PlaceState) : Prop :=
  forall c, c ∈ ps_cities st ->
    exists idx, idx ∈ ps_placed st /\
      x c = Z.rem idx (Z.of_nat width) /\ y c = idx / Z.of_nat width.

Lemma distSq_sym (a b c d : Z) : distSq a b c d = distSq c d a b.
Proof. unfold distSq. lia. Qed.

Lemma pairwiseSpaced_snoc (cs : list City) (c : City) :
  pairwiseSpaced cs -> spacedFrom c cs -> pairwiseSpaced (cs ++ [c]).
Proof.
  induction cs as [|c0 cs IH]; simpl; intros Hcs Hc.
  - split; [|exact I]. intros c' Hc'. inversion Hc'.
  - destruct Hcs as [H0 Hcs]. split.
    + intros c' Hc'. apply elem_of_app in Hc' as [Hc'|Hc'].
      * apply H0, Hc'.
      * apply list_elem_of_singleton in Hc'. subst c'.
        rewrite distSq_sym. apply Hc. left.
    + apply IH; [exact Hcs|]. intros c' Hc'. apply Hc. right. exact Hc'.
Qed.

Lemma pairwiseSpaced_lookup (cs : list City) (i j : nat) (ci cj : City) :
  pairwiseSpaced cs -> i <> j -> cs !! i = Some ci -> cs !! j = Some cj ->
  closerThan (distSq (x ci) (y ci) (x cj) (y cj)) (minSpacing settings) = false.
Proof.
  revert i j. induction cs as [|c cs IH]; intros i j Hcs Hij Hi Hj; [discriminate Hi|].
  destruct Hcs as [Hc Hcs].
  destruct i as [|i], j as [|j]; simpl in Hi, Hj.
  - congruence.
  - injection Hi as ->. apply Hc. eapply list_elem_of_lookup_2, Hj.
  - injection Hj as ->. rewrite distSq_sym. apply Hc.
    eapply list_elem_of_lookup_2, Hi.
  - apply (IH i j); auto.
Qed.

Lemma tooClose_false (placed : list Z) (x0 y0 idx : Z) :
  tooClose placed x0 y0 = false -> idx ∈ placed ->
  closerThan (distSq x0 y0 (Z.rem idx (Z.of_nat width)) (idx / Z.of_nat width))
             (minSpacing settings) = false.
Proof.
  unfold Cities.tooClose. intros H Hin.
  destruct (closerThan _ _) eqn:E; [|reflexivity].
  assert (Hex : existsb
    (fun cityIdx : Z =>
       closerThan (distSq x0 y0 (Z.rem cityIdx (Z.of_nat width)) (cityIdx / Z.of_nat width))
                  (minSpacing settings)) placed = true).
  { apply existsb_exists. exists idx. split; [|exact E].
    apply list_elem_of_In. exact Hin. }
  congruence.
Qed.

Definition placeInv (st : PlaceState) : Prop :=
  onPlaced st /\ pairwiseSpaced (ps_cities st).

Lemma placeStep_inv (st : PlaceState) (i : nat) :
  placeInv st -> placeInv (placeStep st i).
Proof.
  intros [Hon Hsp]. unfold Cities.placeStep.
  pose proof (findBest_spaced (ps_scores st) (ps_placed st) (ps_prng st)) as Hbest.
  destruct (findBest _ _ _) as [[bestIdx bestScore] g]. simpl in Hbest.
  destruct (0 <=? bestIdx) eqn:Hge.
  2:{ split; simpl; assumption. }
  apply Z.leb_le in Hge.
  destruct Hbest as [Hbest|Hbest]; [lia|].
  destruct (cityType _ _ _ _ _ _ _ _ _ _) as [ty g1].
  destruct (if (i =? 0)%nat then _ else _) as [sz g2].
  destruct (generateCityName g2) as [nm g3].
  split; simpl.
  - intros c Hc. apply elem_of_app in Hc as [Hc|Hc].
    + destruct (Hon c Hc) as (idx & Hidx & Hx & Hy).
      exists idx. split; [|auto]. case_bool_decide; [exact Hidx|].
      apply elem_of_app. left. exact Hidx.
    + apply list_elem_of_singleton in Hc. subst c. simpl.
      exists bestIdx. split; [|auto]. case_bool_decide; [assumption|].
      apply elem_of_app. right. apply list_elem_of_singleton. reflexivity.
  - apply pairwiseSpaced_snoc; [exact Hsp|].
    intros c' Hc'. simpl.
    destruct (Hon c' Hc') as (idx & Hidx & Hx & Hy). rewrite Hx, Hy.
    apply (tooClose_false (ps_placed st)); assumption.
Qed.

End PlaceCitiesFacts.

(** C6 (spacing invariant): any two distinct cities of the list returned by
    [placeCities] are at Euclidean distance at least [minSpacing]; on the
    squares: [minSpacing^2 <= dx^2 + dy^2] (or [minSpacing] is not positive,
    when every distance qualifies). *)
Theorem placeCities_spacing
    (heightMap : list Q) (landMask biome rivers : list Z) (width height : nat)
    (settings : CitySettings) (prng : PRNG.t) (i j : nat) (ci cj : City) :
  i <> j ->
  Cities.placeCities heightMap landMask biome rivers width height settings prng !! i
    = Some ci ->
  Cities.placeCities heightMap landMask biome rivers width height settings prng !! j
    = Some cj ->
  minSpacing settings <= 0 \/
  minSpacing settings * minSpacing settings <= (x ci - x cj) ^ 2 + (y ci - y cj) ^ 2.
Proof.
  intros Hij Hi Hj. unfold Cities.placeCities in Hi, Hj.
  destruct (negb (citiesEnabled settings)); [discriminate Hi|].
  destruct (Cities.computeScores _ _ _ _ _ _ _ _) as [scores g].
  apply closerThan_false.
  refine (pairwiseSpaced_lookup settings _ i j ci cj _ Hij Hi Hj).
  apply (foldl_invariant (placeInv width settings)).
  - split; simpl; [|exact I]. intros c Hc. inversion Hc.
  - intros st k Hst. apply placeStep_inv. exact Hst.
Qed.

Lemma stripCities_positions :
  List.map (fun c => (id c, x c, y c)) stripCities = [(0, 3, 0); (1, 0, 0)].
Proof. vm_compute. reflexivity. Qed.

Lemma placeCities_spacing_witness :
  exists ci cj : City,
    stripCities !! 0%nat = Some ci /\ stripCities !! 1%nat = Some cj /\
    (minSpacing stripSettings <= 0 \/
     minSpacing stripSettings * minSpacing stripSettings
       <= (x ci - x cj) ^ 2 + (y ci - y cj) ^ 2).
Proof.
  destruct (stripCities !! 0%nat) as [ci|] eqn:Hi; [|vm_compute in Hi; discriminate Hi].
  destruct (stripCities !! 1%nat) as [cj|] eqn:Hj; [|vm_compute in Hj; discriminate Hj].
  exists ci, cj. split; [reflexivity|]. split; [reflexivity|].
  apply (placeCities_spacing (replicate 5 0%Q) [1; 1; 1; 1; 1] [6; 6; 6; 6; 6]
           [0; 0; 0; 0; 0] 5 1 stripSettings 1 0 1 ci cj).
  - lia.
  - exact Hi.
  - exact Hj.
Defined.

(** *** The capital *)

Section CapitalFacts.
Import Cities.
Variables (landMask rivers : list Z) (width height : nat) (settings : CitySettings).

Lemma cityType_capital (i : nat) (x0 y0 bestIdx : Z) (bestScore : Q) (prng : PRNG.t) :
  fst (cityType landMask rivers width height i x0 y0 bestIdx bestScore prng) = capital
  <-> i = O.
Proof.
  unfold cityType. destruct i as [|i]; simpl; [tauto|].
  split; [|discriminate].
  repeat match goal with
         | |- context [if ?b then _ else _] => destruct b
         | |- context [PRNG.chance ?p ?g] => destruct (PRNG.chance p g)
         end; simpl; discriminate.
Qed.

(** After [i] iterations: at most [i] cities, with increasing ids below [i],
    and a city is the capital exactly when its id is [0]. *)
Definition capitalInv (i : nat) (st : PlaceState) : Prop :=
  (length (ps_cities st) <= i)%nat /\
  (forall c, c ∈ ps_cities st -> 0 <= id c < Z.of_nat i) /\
  StronglySorted Z.lt (List.map id (ps_cities st)) /\
  (forall c, c ∈ ps_cities st -> type c = capital <-> id c = 0).

Lemma placeStep_capitalInv (st : PlaceState) (i : nat) :
  capitalInv i st -> capitalInv (S i) (placeStep landMask rivers width height settings st i).
Proof.
  intros (Hlen & Hid & Hsorted & Hcap). unfold placeStep.
  destruct (findBest _ _ _ _ _ _) as [[bestIdx bestScore] g].
  destruct (0 <=? bestIdx).
  2:{ split; [simpl; lia|]. split; [|split; [exact Hsorted|exact Hcap]].
      simpl. intros c Hc. specialize (Hid c Hc). lia. }
  pose proof (cityType_capital i (Z.rem bestIdx (Z.of_nat width))
                (bestIdx / Z.of_nat width) bestIdx bestScore g) as Hty.
  destruct (cityType _ _ _ _ _ _ _ _ _ _) as [ty g1]. simpl in Hty.
  destruct (if (i =? 0)%nat then _ else _) as [sz g2].
  destruct (generateCityName g2) as [nm g3].
  split; [|split; [|split]]; simpl.
  - rewrite length_app. simpl. lia.
  - intros c Hc. apply elem_of_app in Hc as [Hc|Hc].
    + specialize (Hid c Hc). lia.
    + apply list_elem_of_singleton in Hc. subst c. simpl. lia.
  - rewrite map_app. simpl.
    clear Hcap Hlen Hty. induction (ps_cities st) as [|c cs IH]; simpl.
    + repeat constructor.
    + inversion Hsorted as [|? ? Hs Hall]; subst.
      constructor.
      * apply IH; [|exact Hs]. intros c' Hc'. apply Hid. right. exact Hc'.
      * apply Forall_app. split; [exact Hall|].
        constructor; [|constructor]. specialize (Hid c ltac:(left)). lia.
  - intros c Hc. apply elem_of_app in Hc as [Hc|Hc].
    + apply Hcap; assumption.
    + apply list_elem_of_singleton in Hc. subst c. simpl.
      rewrite Hty. lia.
Qed.

End CapitalFacts.

(** What [placeCities] guarantees about the capital and the ids: at most
    [count] cities, listed by strictly increasing id (the index of the
    iteration that placed them), and the capital is the city with id [0],
    when the first iteration placed one. *)
Lemma placeCities_capital_facts
    (heightMap : list Q) (landMask biome rivers : list Z) (width height : nat)
    (settings : CitySettings) (prng : PRNG.t) :
  let cs := Cities.placeCities heightMap landMask biome rivers width height settings prng in
  (length cs <= Z.to_nat (count settings))%nat /\
  StronglySorted Z.lt (List.map id cs) /\
  (forall c, c ∈ cs -> type c = capital <-> id c = 0).
Proof.
  unfold Cities.placeCities.
  destruct (negb (citiesEnabled settings)).
  { simpl. split; [lia|]. split; [constructor|]. intros c Hc. inversion Hc. }
  destruct (Cities.computeScores _ _ _ _ _ _ _ _) as [scores g].
  pose proof (foldl_seq_invariant (capitalInv) 
    (Cities.placeStep landMask rivers width height settings)
    (Z.to_nat (count settings))
    {| Cities.ps_cities := []; Cities.ps_placed := []; Cities.ps_scores := scores;
       Cities.ps_prng := g |}) as H.
  destruct H as (Hlen & _ & Hsorted & Hcap).
  - split; [simpl; lia|]. split; [|split; [constructor|]];
      simpl; intros c Hc; inversion Hc.
  - intros i a _. apply placeStep_capitalInv.
  - cbv zeta. auto.
Qed.

(** C7, at the failing input: the list returned is not empty, and it has no
    capital; its first and only city has id 1 and type [city]. *)
Theorem placeCities_island_no_capital :
  List.map (fun c => (id c, x c, y c, type c, name c)) islandCities
    = [(1, 1, 1, city, "Ton"%string)].
Proof. vm_compute. reflexivity. Qed.
(** ** Roads *)

Section RoadFacts.
Import Cities.

Definition roadKey (r : Road) : Z * Z := (fromCityId r, toCityId r).
Definition pairKey (p : Pair) : Z * Z := (id (p_from p), id (p_to p)).

(** A list of id pairs without loops, repetitions or reversed repetitions. *)
Definition goodKeys (ks : list (Z * Z)) : Prop :=
  (forall k, k ∈ ks -> k.1 <> k.2) /\
  NoDup ks /\
  (forall a b, (a, b) ∈ ks -> (b, a) ∉ ks).

Lemma allPairs_keys_in (cs : list City) (k : Z * Z) :
  k ∈ List.map pairKey (allPairs cs) ->
  k.1 ∈ List.map id cs /\ k.2 ∈ List.map id cs.
Proof.
  induction cs as [|c rest IH]; simpl; intros Hk; [inversion Hk|].
  rewrite map_app, List.map_map in Hk. apply elem_of_app in Hk as [Hk|Hk].
  - apply list_elem_of_fmap in Hk as (c' & -> & Hc'). simpl. split; [left|].
    right. apply list_elem_of_fmap. exists c'. auto.
  - destruct (IH Hk). split; right; assumption.
Qed.

Lemma allPairs_goodKeys (cs : list City) :
  NoDup (List.map id cs) -> goodKeys (List.map pairKey (allPairs cs)).
Proof.
  induction cs as [|c rest IH]; simpl; intros Hnd.
  { split; [|split]; [intros k Hk; inversion Hk | constructor | intros a b Hk; inversion Hk]. }
  apply NoDup_cons in Hnd as [Hc Hnd]. destruct (IH Hnd) as (Hne & Hnd' & Hrev).
  rewrite map_app, List.map_map.
  assert (Hfirst : forall k, k ∈ List.map (fun c' : City => pairKey
            {| p_from := c; p_to := c';
               p_distSq := (x c - x c') ^ 2 + (y c - y c') ^ 2 |}) rest ->
          k.1 = id c /\ k.2 ∈ List.map id rest).
  { intros k Hk. apply list_elem_of_fmap in Hk as (c' & -> & Hc'). simpl.
    split; [reflexivity|]. apply list_elem_of_fmap. exists c'. auto. }
  split; [|split].
  - intros k Hk. apply elem_of_app in Hk as [Hk|Hk].
    + destruct (Hfirst k Hk) as [H1 H2]. rewrite H1. intros E. rewrite <- E in H2. auto.
    + apply Hne, Hk.
  - apply NoDup_app. split; [|split].
    + clear Hfirst IH Hne Hnd' Hrev Hc. induction rest as [|c' rest IH]; simpl.
      * constructor.
      * apply NoDup_cons in Hnd as [Hc' Hnd]. constructor; [|apply IH, Hnd].
        intros Hin. apply list_elem_of_fmap in Hin as (c'' & E & Hc'').
        unfold pairKey in E. simpl in E. injection E as E.
        apply Hc'. apply list_elem_of_fmap. exists c''. auto.
    + intros k Hk1 Hk2. destruct (Hfirst k Hk1) as [H1 _].
      destruct (allPairs_keys_in rest k Hk2) as [H3 _]. rewrite H1 in H3. auto.
    + exact Hnd'.
  - intros a b Hk Hk'.
    apply elem_of_app in Hk as [Hk|Hk]; apply elem_of_app in Hk' as [Hk'|Hk'].
    + destruct (Hfirst _ Hk) as [H1 H2], (Hfirst _ Hk') as [H3 H4]. simpl in *.
      subst. auto.
    + destruct (Hfirst _ Hk) as [H1 H2], (allPairs_keys_in rest _ Hk') as [H3 H4].
      simpl in *. subst. auto.
    + destruct (Hfirst _ Hk') as [H1 H2], (allPairs_keys_in rest _ Hk) as [H3 H4].
      simpl in *. subst. auto.
    + exact (Hrev a b Hk Hk').
Qed.

Lemma insertPair_perm (p : Pair) (l : list Pair) : insertPair p l ≡ₚ p :: l.
Proof.
  induction l as [|q l IH]; simpl; [reflexivity|].
  destruct (p_distSq p <? p_distSq q); [reflexivity|].
  rewrite IH. apply Permutation_swap.
Qed.

Lemma sortPairs_perm (l : list Pair) : sortPairs l ≡ₚ l.
Proof.
  unfold sortPairs.
  assert (H : forall acc, foldl (fun acc p => insertPair p acc) acc l ≡ₚ acc ++ l).
  { induction l as [|p l IH]; intros acc; simpl.
    - rewrite app_nil_r. reflexivity.
    - rewrite IH, insertPair_perm. rewrite (Permutation_middle acc l p). reflexivity. }
  apply (H []).
Qed.

Lemma goodKeys_perm (ks ks' : list (Z * Z)) : ks ≡ₚ ks' -> goodKeys ks -> goodKeys ks'.
Proof.
  intros Hp (Hne & Hnd & Hrev). split; [|split].
  - intros k Hk. apply Hne. rewrite Hp. exact Hk.
  - rewrite <- Hp. exact Hnd.
  - intros a b Hk Hk'. rewrite <- Hp in Hk, Hk'. exact (Hrev a b Hk Hk').
Qed.

Lemma goodKeys_sublist (ks ks' : list (Z * Z)) :
  sublist ks' ks -> goodKeys ks -> goodKeys ks'.
Proof.
  intros Hs (Hne & Hnd & Hrev). split; [|split].
  - intros k Hk. apply Hne. apply (sublist_subseteq _ _ Hs). exact Hk.
  - eapply sublist_NoDup; eauto.
  - intros a b Hk Hk'. apply (Hrev a b); apply (sublist_subseteq _ _ Hs); assumption.
Qed.

Lemma degree_snoc (cid : Z) (roads : list Road) (r : Road) :
  degree cid (roads ++ [r]) =
  (degree cid roads +
   (if bool_decide (fromCityId r = cid \/ toCityId r = cid) then 1 else 0))%nat.
Proof.
  unfold degree. rewrite filter_app, length_app. f_equal.
  rewrite filter_cons, filter_nil.
  case_bool_decide; destruct (decide _); simpl; tauto || lia.
Qed.

Section Connect.
Variables (heightMap : list Q) (landMask forest : list Z).
Variables (settings : RoadSettings) (mapSettings : MapSettings).
Variables (width height : nat).

Local Abbreviation connect :=
  (connect heightMap landMask forest settings mapSettings width height).

(** The state of the connecting loop after the pairs [done]: the roads are
    among the pairs processed, in order; the map counts the roads at each
    city; and no count exceeds the maximum. *)
Definition connectInv (done : list Pair) (st : list Road * gmap Z Z) : Prop :=
  sublist (List.map roadKey st.1) (List.map pairKey done) /\
  (forall cid, default 0 (st.2 !! cid) = Z.of_nat (degree cid st.1)) /\
  (forall cid, Z.of_nat (degree cid st.1) <= maxConnectionsPerCity settings).

Lemma connect_inv (done : list Pair) (st : list Road * gmap Z Z) (p : Pair) :
  (pairKey p).1 <> (pairKey p).2 ->
  connectInv done st -> connectInv (done ++ [p]) (connect st p).
Proof.
  intros Hne (Hsub & Hcnt & Hmax). destruct st as [roads conns]. simpl in *.
  unfold Cities.connect.
  assert (Hkeep : connectInv (done ++ [p]) (roads, conns)).
  { split; [|split]; simpl; auto.
    rewrite map_app. apply sublist_inserts_r. exact Hsub. }
  destruct (_ || _) eqn:Hfull; [exact Hkeep|].
  destruct (findPath _ _ _ _ _ _ _ _ _) as [path|]; [|exact Hkeep].
  apply orb_false_iff in Hfull as [Hf Ht].
  apply Z.leb_gt in Hf, Ht. rewrite Hcnt in Hf, Ht.
  split; [|split]; simpl.
  - rewrite !map_app. simpl. apply sublist_app; [exact Hsub|]. reflexivity.
  - intros cid. rewrite degree_snoc. simpl.
    destruct (decide (cid = id (p_to p))) as [->|Hto].
    + rewrite lookup_insert_eq. simpl. rewrite Hcnt.
      rewrite bool_decide_true by auto. lia.
    + rewrite lookup_insert_ne by auto.
      destruct (decide (cid = id (p_from p))) as [->|Hfrom].
      * rewrite lookup_insert_eq. simpl. rewrite Hcnt.
        rewrite bool_decide_true by auto. lia.
      * rewrite lookup_insert_ne by auto. rewrite Hcnt.
        rewrite bool_decide_false by (intros [?|?]; congruence). lia.
  - intros cid. rewrite degree_snoc. simpl.
    case_bool_decide as Hc; [|specialize (Hmax cid); lia].
    destruct Hc as [<-|<-]; lia.
Qed.

Lemma connect_fold_inv (ps done : list Pair) (st : list Road * gmap Z Z) :
  (forall p, p ∈ ps -> (pairKey p).1 <> (pairKey p).2) ->
  connectInv done st -> connectInv (done ++ ps) (foldl connect st ps).
Proof.
  revert done st. induction ps as [|p ps IH]; intros done st Hne Hinv; simpl.
  - rewrite app_nil_r. exact Hinv.
  - replace (done ++ p :: ps) with ((done ++ [p]) ++ ps)
      by (rewrite <- app_assoc; reflexivity).
    apply IH.
    + intros q Hq. apply Hne. right. exact Hq.
    + apply connect_inv; [|exact Hinv]. apply Hne. left.
Qed.

End Connect.
End RoadFacts.

(** C8 (road invariants): for cities with pairwise distinct ids and a
    non-negative connection limit, the road list returned by [generateRoads]
    has no road from a city to itself, joins every unordered pair of cities at
    most once, and has every city as an endpoint of at most
    [maxConnectionsPerCity] roads. *)
Theorem generateRoads_invariants
    (heightMap : list Q) (landMask forest : list Z) (settings : RoadSettings)
    (mapSettings : MapSettings) (width height : nat) (cs : list City) :
  NoDup (List.map id cs) ->
  0 <= maxConnectionsPerCity settings ->
  let roads :=
    Cities.generateRoads heightMap landMask forest settings mapSettings width height cs in
  (forall r, r ∈ roads -> fromCityId r <> toCityId r) /\
  (forall i j r1 r2, i <> j -> roads !! i = Some r1 -> roads !! j = Some r2 ->
     ~ Cities.samePair r1 r2) /\
  (forall cid, Z.of_nat (Cities.degree cid roads) <= maxConnectionsPerCity settings).
Proof.
  intros Hnd Hmax roads. subst roads. unfold Cities.generateRoads.
  destruct (_ || _).
  { split; [|split].
    - intros r Hr. inversion Hr.
    - intros i j r1 r2 _ Hi. discriminate Hi.
    - intros cid. simpl. exact Hmax. }
  assert (Hgood : goodKeys (List.map pairKey (Cities.sortPairs (Cities.allPairs cs)))).
  { apply (goodKeys_perm (List.map pairKey (Cities.allPairs cs))).
    - apply Permutation_map. symmetry. apply sortPairs_perm.
    - apply allPairs_goodKeys, Hnd. }
  pose proof (connect_fold_inv heightMap landMask forest settings mapSettings
                width height (Cities.sortPairs (Cities.allPairs cs)) [] ([], ∅)) as Hinv.
  destruct Hinv as (Hsub & _ & Hdeg).
  - intros p Hp. apply (proj1 Hgood). apply list_elem_of_fmap. exists p. auto.
  - split; [|split]; simpl.
    + constructor.
    + intros cid. rewrite lookup_empty. reflexivity.
    + intros cid. exact Hmax.
  - simpl in Hsub.
    destruct (foldl _ _ _) as [roads conns]. simpl in *.
    pose proof (goodKeys_sublist _ _ Hsub Hgood) as (Hne & Hnodup & Hrev).
    split; [|split].
    + intros r Hr. apply (Hne (roadKey r)). apply list_elem_of_fmap. exists r. auto.
    + intros i j r1 r2 Hij Hi Hj [[E1 E2]|[E1 E2]].
      * apply Hij. apply (NoDup_lookup _ i j (roadKey r1) Hnodup).
        -- rewrite list_lookup_fmap, Hi. reflexivity.
        -- rewrite list_lookup_fmap, Hj. unfold roadKey. simpl. congruence.
      * apply (Hrev (fromCityId r1) (toCityId r1)).
        -- apply list_elem_of_fmap. exists r1. split; [reflexivity|].
           eapply list_elem_of_lookup_2, Hi.
        -- apply list_elem_of_fmap. exists r2. split.
           ++ unfold roadKey. congruence.
           ++ eapply list_elem_of_lookup_2, Hj.
    + exact Hdeg.
Qed.

Lemma generateRoads_invariants_witness :
  NoDup (List.map id [westCity; eastCity]) /\
  0 <= maxConnectionsPerCity (roads DEFAULT_SETTINGS) /\
  (forall r, r ∈ stripRoads -> fromCityId r <> toCityId r) /\
  (forall i j r1 r2, i <> j -> stripRoads !! i = Some r1 -> stripRoads !! j = Some r2 ->
     ~ Cities.samePair r1 r2) /\
  (forall cid, Z.of_nat (Cities.degree cid stripRoads)
               <= maxConnectionsPerCity (roads DEFAULT_SETTINGS)).
Proof.
  assert (Hnd : NoDup (List.map id [westCity; eastCity])).
  { simpl. apply NoDup_cons. split; [|apply NoDup_singleton].
    intros H. apply list_elem_of_singleton in H. discriminate H. }
  assert (Hmax : 0 <= maxConnectionsPerCity (roads DEFAULT_SETTINGS)) by (simpl; lia).
  split; [exact Hnd|]. split; [exact Hmax|].
  exact (generateRoads_invariants (replicate 4 0%Q) [1; 1; 1; 1] [0; 0; 0; 0]
           (roads DEFAULT_SETTINGS) (map DEFAULT_SETTINGS) 4 1 [westCity; eastCity]
           Hnd Hmax).
Defined.

(** The road network of the cities that [placeCities] returns: their ids are
    distinct, being strictly increasing. *)
Lemma placeCities_ids_NoDup
    (heightMap : list Q) (landMask biome rivers : list Z) (width height : nat)
    (settings : CitySettings) (prng : PRNG.t) :
  NoDup (List.map id
           (Cities.placeCities heightMap landMask biome rivers width height settings prng)).
Proof.
  destruct (placeCities_capital_facts heightMap landMask biome rivers width height
              settings prng) as (_ & Hsorted & _).
  revert Hsorted. generalize (List.map id
    (Cities.placeCities heightMap landMask biome rivers width height settings prng)).
  intros l Hsorted. induction Hsorted as [|a l Hs IH Hall]; [constructor|].
  constructor; [|exact IH].
  intros Hin. rewrite Forall_forall in Hall. specialize (Hall a Hin). lia.
Qed.

(** *** Paths *)

Section PathFacts.
Import Cities.

(** The simplified path never has more points than the path it is given. *)
Lemma simplifyPathFuel_length (fuel : nat) (path : list Point) :
  (length (simplifyPathFuel fuel path) <= length path)%nat.
Proof.
  revert path. induction fuel as [|fuel IH]; intros path; simpl; [lia|].
  destruct (length path <=? 2)%nat eqn:Hlen; [lia|].
  apply Nat.leb_gt in Hlen.
  destruct (farthest _ _ _ _ _) as [maxDistSq maxIdx].
  destruct (Num.Qltb 4 maxDistSq); [|simpl; lia].
  rewrite length_app.
  pose proof (IH (take (S maxIdx) path)) as Hl.
  pose proof (IH (drop maxIdx path)) as Hr.
  rewrite length_take in Hl. rewrite length_drop in Hr.
  assert (Hrl : forall l : list Point, length (List.removelast l) = Nat.pred (length l)).
  { intros l. induction l as [|a [|b l] IHl]; simpl in *; auto. }
  rewrite Hrl. lia.
Qed.

Lemma simplifyPath_length (path : list Point) :
  (length (simplifyPath path) <= length path)%nat.
Proof. apply simplifyPathFuel_length. Qed.

End PathFacts.

(** *** The search *)

Section SearchFacts.
Import Cities.

Lemma mapGet_mapSet_eq {A} (k : Z) (v : A) (m : list (Z * A)) :
  mapGet k (mapSet k v m) = Some v.
Proof.
  induction m as [|[k' v'] m IH]; simpl.
  - rewrite Z.eqb_refl. reflexivity.
  - destruct (k' =? k) eqn:E; simpl.
    + rewrite Z.eqb_refl. reflexivity.
    + rewrite E. exact IH.
Qed.

Lemma mapGet_mapSet_ne {A} (k k' : Z) (v : A) (m : list (Z * A)) :
  k <> k' -> mapGet k' (mapSet k v m) = mapGet k' m.
Proof.
  intros Hne. induction m as [|[k0 v0] m IH]; simpl.
  - replace (k =? k') with false by (symmetry; apply Z.eqb_neq; exact Hne). reflexivity.
  - destruct (k0 =? k) eqn:E; simpl.
    + apply Z.eqb_eq in E. subst k0.
      replace (k =? k') with false by (symmetry; apply Z.eqb_neq; exact Hne).
      reflexivity.
    + destruct (k0 =? k'); [reflexivity|exact IH].
Qed.

Lemma mapGet_mapDelete {A} (k k' : Z) (m : list (Z * A)) (v : A) :
  mapGet k' (mapDelete k m) = Some v -> k' <> k /\ mapGet k' m = Some v.
Proof.
  unfold mapDelete. induction m as [|[k0 v0] m IH]; simpl; [discriminate|].
  rewrite filter_cons. destruct (decide (fst (k0, v0) <> k)) as [Hk|Hk]; simpl in *.
  - destruct (k0 =? k') eqn:E.
    + apply Z.eqb_eq in E. subst k0. intros H. split; [congruence|exact H].
    + exact IH.
  - intros H. destruct (IH H) as [Hne Hget]. split; [exact Hne|].
    destruct (k0 =? k') eqn:E; [|exact Hget].
    apply Z.eqb_eq in E. subst k0. exfalso. apply Hk. exact Hne.
Qed.

Section WithGrid.
Variables (heightMap : list Q) (landMask forest : list Z).
Variables (settings : RoadSettings) (mapSettings : MapSettings).
Variables (width height : nat) (from to : Point).

(** In the open set, no node is closed and every parent is: the nodes that
    have been expanded are exactly the ones deleted from the open set. *)
Definition openInv (openSet : list (Z * Node)) (closedSet : gset Z) : Prop :=
  forall k node, mapGet k openSet = Some node ->
    (k ∉ closedSet) /\ forall p, parent node = Some p -> p ∈ closedSet.

Lemma visit_openInv (currentIdx : Z) (current : Node) (closedSet : gset Z)
    (openSet : list (Z * Node)) (d : Z * Z) :
  currentIdx ∈ closedSet -> openInv openSet closedSet ->
  openInv (visit heightMap landMask forest settings mapSettings width height to
             currentIdx current closedSet openSet d) closedSet.
Proof.
  intros Hcur Hinv. unfold visit. destruct d as [dx dy].
  destruct (_ || _); [exact Hinv|].
  case_bool_decide as Hclosed; [exact Hinv|].
  set (nidx := (n_y current + dy) * Z.of_nat width + (n_x current + dx)) in *.
  assert (Hset : forall node', parent node' = Some currentIdx ->
            openInv (mapSet nidx node' openSet) closedSet).
  { intros node' Hp k node Hget.
    destruct (decide (nidx = k)) as [<-|Hne].
    - rewrite mapGet_mapSet_eq in Hget. injection Hget as <-.
      split; [exact Hclosed|]. intros p Hp'. rewrite Hp in Hp'. injection Hp' as <-.
      exact Hcur.
    - rewrite mapGet_mapSet_ne in Hget by exact Hne. apply Hinv, Hget. }
  destruct (mapGet nidx openSet) as [existing|].
  - destruct (Num.Qleb _ _); [exact Hinv|]. apply Hset. reflexivity.
  - apply Hset. reflexivity.
Qed.

Lemma tracePath_None (fuel : nat) (pathNodes : list (Z * Node)) (path : list Point) :
  tracePath width fuel pathNodes None path = path.
Proof. destruct fuel; reflexivity. Qed.

(** The reconstruction stops after one parent. *)
Lemma reconstruct_short (openSet : list (Z * Node)) (closedSet : gset Z) (idx : Z) :
  openInv openSet closedSet ->
  (length (reconstruct width openSet idx) <= 2)%nat.
Proof.
  intros Hinv. unfold reconstruct. simpl.
  destruct (mapGet idx openSet) as [node|] eqn:Hget;
    [|rewrite tracePath_None; simpl; lia].
  destruct (parent node) as [p|] eqn:Hp; [|rewrite tracePath_None; simpl; lia].
  destruct (length openSet) as [|fuel]; simpl; [lia|].
  destruct (mapGet p openSet) as [node'|] eqn:Hget'.
  - exfalso. destruct (Hinv idx node Hget) as [_ Hpar].
    destruct (Hinv p node' Hget') as [Hnot _]. apply Hnot, Hpar, Hp.
  - rewrite tracePath_None. simpl. lia.
Qed.

Lemma search_short (fuel : nat) :
  forall (openSet : list (Z * Node)) (closedSet : gset Z) (path : list Point),
    openInv openSet closedSet ->
    search heightMap landMask forest settings mapSettings width height to
           fuel openSet closedSet = Some path ->
    (length path <= 2)%nat.
Proof.
  induction fuel as [|fuel IH]; intros openSet closedSet path Hinv Hrun;
    [discriminate Hrun|].
  destruct openSet as [|e rest]; [discriminate Hrun|].
  cbn [search] in Hrun.
  set (openSet := e :: rest) in *.
  destruct (_ =? _).
  - injection Hrun as <-. eapply reconstruct_short, Hinv.
  - destruct (mapGet (lowest openSet (-1) None) openSet) as [current|];
      [|discriminate Hrun].
    refine (IH _ _ path _ Hrun).
    apply foldl_invariant.
    + intros k node Hget. apply mapGet_mapDelete in Hget as [Hne Hget].
      destruct (Hinv k node Hget) as [Hnot Hpar]. split.
      * intros Hin. apply elem_of_union in Hin as [Hin|Hin].
        -- apply elem_of_singleton in Hin. exact (Hne Hin).
        -- exact (Hnot Hin).
      * intros p Hp. apply elem_of_union. right. apply Hpar, Hp.
    + intros openSet' d Hinv'. apply visit_openInv; [|exact Hinv'].
      apply elem_of_union. left. apply elem_of_singleton. reflexivity.
Qed.

(** Every path returned by [findPath] has at most two points: the goal and
    the cell from which the search reached it. *)
Lemma findPath_at_most_two_points (path : list Point) :
  findPath heightMap landMask forest settings mapSettings width height from to
    = Some path ->
  (length path <= 2)%nat.
Proof.
  unfold findPath, rawPath. intros Hrun.
  destruct (search _ _ _ _ _ _ _ _ _ _ _) as [raw|] eqn:Hraw; [|discriminate Hrun].
  injection Hrun as <-.
  pose proof (simplifyPath_length raw) as Hs.
  assert (Hraw' : (length raw <= 2)%nat); [|lia].
  eapply (search_short _ _ _ raw); [|exact Hraw].
  intros k node Hget. simpl in Hget.
  destruct (_ =? k); [|discriminate Hget]. injection Hget as <-. simpl.
  split; [apply not_elem_of_empty|]. intros p Hp. discriminate Hp.
Qed.

End WithGrid.
End SearchFacts.

(** C4, at the failing input: two cities at the ends of a strip of four flat
    land cells.  The road between them is accepted, and its stored path is
    [(2,0); (3,0)]: it ends at the to-city but starts next to it, not at the
    from-city [(0,0)]. *)
Theorem generateRoads_path_misses_from_city :
  stripRoads =
  [{| fromCityId := 0; toCityId := 1;
      path := [{| px := 2; py := 0 |}; {| px := 3; py := 0 |}] |}].
Proof. vm_compute. reflexivity. Qed.

(** ** Flow accumulation *)

(** Sums over a list of cells. *)
Definition sumOver (f : nat -> Z) (l : list nat) : Z := foldr Z.add 0 (List.map f l).

Section SumFacts.

Lemma sumOver_app f l1 l2 : sumOver f (l1 ++ l2) = sumOver f l1 + sumOver f l2.
Proof.
  unfold sumOver. induction l1 as [|a l1 IH]; simpl; [reflexivity|]. rewrite IH. lia.
Qed.

Lemma sumOver_ext f g l :
  (forall i, i ∈ l -> f i = g i) -> sumOver f l = sumOver g l.
Proof.
  unfold sumOver. induction l as [|a l IH]; intros H; simpl; [reflexivity|].
  rewrite (H a) by left. rewrite IH; [reflexivity|].
  intros i Hi. apply H. right. exact Hi.
Qed.

(** Two summands that differ at one cell only. *)
Lemma sumOver_differ_at f g a l :
  NoDup l -> a ∈ l -> (forall i, i ∈ l -> i <> a -> f i = g i) ->
  sumOver f l = sumOver g l + (f a - g a).
Proof.
  unfold sumOver. induction l as [|b l IH]; intros Hnd Ha H; [inversion Ha|].
  apply NoDup_cons in Hnd as [Hb Hnd]. simpl.
  destruct (decide (b = a)) as [->|Hba].
  - fold (sumOver f l). fold (sumOver g l).
    rewrite (sumOver_ext f g l); [lia|].
    intros i Hi. apply H; [right; exact Hi|]. intros ->. auto.
  - rewrite (H b) by (auto; left). rewrite IH; auto.
    + lia.
    + apply elem_of_cons in Ha as [->|Ha]; [congruence|exact Ha].
    + intros i Hi. apply H. right. exact Hi.
Qed.

Lemma sumOver_nonneg f l : (forall i, i ∈ l -> 0 <= f i) -> 0 <= sumOver f l.
Proof.
  unfold sumOver. induction l as [|a l IH]; intros H; simpl; [lia|].
  specialize (H a ltac:(left)) as Ha.
  assert (0 <= foldr Z.add 0 (List.map f l)); [|lia].
  apply IH. intros i Hi. apply H. right. exact Hi.
Qed.

Lemma sumOver_zero f l :
  (forall i, i ∈ l -> 0 <= f i) -> sumOver f l = 0 -> forall i, i ∈ l -> f i = 0.
Proof.
  induction l as [|a l IH]; intros H Hsum i Hi; [inversion Hi|].
  unfold sumOver in Hsum. simpl in Hsum. fold (sumOver f l) in Hsum.
  pose proof (H a ltac:(left)) as Ha.
  pose proof (sumOver_nonneg f l (fun i Hi => H i ltac:(right; exact Hi))) as Hl.
  apply elem_of_cons in Hi as [->|Hi]; [lia|].
  apply IH; auto; [|lia]. intros k Hk. apply H. right. exact Hk.
Qed.

Lemma sumOver_all_zero f l : (forall i, i ∈ l -> f i = 0) -> sumOver f l = 0.
Proof.
  intros H. rewrite (sumOver_ext f (fun _ => 0) l H). clear H.
  unfold sumOver. induction l; simpl; lia.
Qed.

End SumFacts.

Section GridFacts.
Import Hydrology.
Variables (width height : nat).

Lemma cellAt_Some (nx ny : Z) (n : nat) :
  cellAt width height nx ny = Some n ->
  0 <= nx < Z.of_nat width /\ 0 <= ny < Z.of_nat height /\
  Z.of_nat n = ny * Z.of_nat width + nx /\ (n < width * height)%nat.
Proof.
  unfold cellAt. destruct (_ && _) eqn:E; [|discriminate].
  intros [= <-]. repeat (apply andb_true_iff in E as [E ?]).
  apply Z.leb_le in E. repeat match goal with H : _ = true |- _ =>
    first [apply Z.leb_le in H | apply Z.ltb_lt in H] end.
  repeat split; try lia. nia.
Qed.

Lemma cellAt_in_bounds (nx ny : Z) :
  0 <= nx < Z.of_nat width -> 0 <= ny < Z.of_nat height ->
  cellAt width height nx ny = Some (Z.to_nat (ny * Z.of_nat width + nx)).
Proof.
  intros Hx Hy. unfold cellAt.
  replace (0 <=? nx) with true by (symmetry; apply Z.leb_le; lia).
  replace (nx <? Z.of_nat width) with true by (symmetry; apply Z.ltb_lt; lia).
  replace (0 <=? ny) with true by (symmetry; apply Z.leb_le; lia).
  replace (ny <? Z.of_nat height) with true by (symmetry; apply Z.ltb_lt; lia).
  reflexivity.
Qed.

(** The direction tables: eight offsets, none of them null. *)
Lemma direction_offsets (d : nat) (dx dy : Z) :
  DX !! d = Some dx -> DY !! d = Some dy ->
  (d < 8)%nat /\ -1 <= dx <= 1 /\ -1 <= dy <= 1 /\ (dx <> 0 \/ dy <> 0).
Proof.
  do 8 (destruct d as [|d]; [simpl; intros [= <-] [= <-]; lia|]).
  simpl. discriminate.
Qed.

Lemma neighbour_Some (i n : nat) (dir : Z) :
  neighbour width height i dir = Some n ->
  (n < width * height)%nat /\ n <> i.
Proof.
  unfold neighbour. destruct (dir <? 0); [discriminate|].
  destruct (DX !! Z.to_nat dir) as [dx|] eqn:Hdx; [|discriminate].
  destruct (DY !! Z.to_nat dir) as [dy|] eqn:Hdy; [|discriminate].
  intros Hc. apply cellAt_Some in Hc as (Hx & Hy & Hn & Hlt).
  split; [exact Hlt|].
  destruct (direction_offsets _ _ _ Hdx Hdy) as (_ & Hdx' & Hdy' & Hnz).
  intros ->.
  assert (Hw : (0 < width)%nat) by lia.
  pose proof (Nat.div_mod_eq i width) as Hi.
  pose proof (Nat.mod_upper_bound i width ltac:(lia)) as Hm.
  revert Hx Hy Hn Hi Hm.
  generalize (i mod width)%nat (i / width)%nat. intros x0 y0 Hx Hy Hn Hi Hm.
  assert (Hi' : Z.of_nat i = Z.of_nat width * Z.of_nat y0 + Z.of_nat x0) by lia.
  assert (Hcase : dy = -1 \/ dy = 0 \/ dy = 1) by lia.
  destruct Hcase as [-> | [-> | ->]]; lia.
Qed.

End GridFacts.

Section FlowAccumulationFacts.
Import Hydrology.
Variables (flowDir landMask : list Z) (width height : nat).

Local Abbreviation size := (width * height)%nat.
Local Abbreviation outflow := (outflow flowDir width height).
Local Abbreviation flowsInto := (flowsInto flowDir landMask width height).
Local Abbreviation drain := (drain flowDir landMask width height).

Definition get (a : list Z) (i : nat) : Z := default 0 (a !! i).

(** The contributors of cell [j] that are not yet processed, counted; and
    the accumulation already received from the processed ones. *)
Definition pending (P : list nat) (j : nat) : Z :=
  sumOver (fun i => if flowsInto i j && negb (bool_decide (i ∈ P)) then 1 else 0)
          (seq 0 size).

Definition received (P : list nat) (a : list Z) (j : nat) : Z :=
  sumOver (fun i => if flowsInto i j && bool_decide (i ∈ P) then get a i else 0)
          (seq 0 size).

Local Arguments pending : simpl never.
Local Arguments received : simpl never.
Local Arguments get : simpl never.

Lemma outflow_Some (i n : nat) : outflow i = Some n -> (n < size)%nat /\ n <> i.
Proof.
  unfold Hydrology.outflow. destruct (flowDir !! i); [|discriminate].
  apply neighbour_Some.
Qed.

Lemma flowsInto_true (i j : nat) :
  flowsInto i j = true <-> landMask !! i = Some 1 /\ outflow i = Some j.
Proof.
  unfold Hydrology.flowsInto. rewrite andb_true_iff, !bool_decide_eq_true. tauto.
Qed.

Lemma in_seq_size (i : nat) : i ∈ seq 0 size <-> (i < size)%nat.
Proof. rewrite elem_of_seq. lia. Qed.

Lemma pending_nonneg_terms (P : list nat) (j i : nat) :
  0 <= (if flowsInto i j && negb (bool_decide (i ∈ P)) then 1 else 0).
Proof. destruct (_ && _); lia. Qed.

Lemma pending_zero (P : list nat) (j : nat) :
  pending P j = 0 <->
  forall i, (i < size)%nat -> flowsInto i j = true -> i ∈ P.
Proof.
  unfold pending. split.
  - intros H i Hi Hf.
    pose proof (sumOver_zero _ _ (fun i _ => pending_nonneg_terms P j i) H i
                  (proj2 (in_seq_size i) Hi)) as Hz.
    simpl in Hz. rewrite Hf in Hz. simpl in Hz.
    destruct (bool_decide (i ∈ P)) eqn:E; [|simpl in Hz; lia].
    apply bool_decide_eq_true in E. exact E.
  - intros H. apply sumOver_all_zero. intros i Hi. apply in_seq_size in Hi.
    destruct (flowsInto i j) eqn:Hf; [|reflexivity].
    rewrite bool_decide_true by (apply H; assumption). reflexivity.
Qed.

(** Processing [idx], which drains into [n] (or nowhere). *)
Lemma pending_step (P : list nat) (idx j : nat) :
  (idx < size)%nat -> idx ∉ P ->
  pending (P ++ [idx]) j = pending P j - (if flowsInto idx j then 1 else 0).
Proof.
  intros Hidx Hnot. unfold pending.
  rewrite (sumOver_differ_at _
             (fun i => if flowsInto i j && negb (bool_decide (i ∈ P)) then 1 else 0)
             idx (seq 0 size)).
  - rewrite (bool_decide_true (idx ∈ P ++ [idx])) by set_solver.
    rewrite (bool_decide_false (idx ∈ P)) by exact Hnot.
    destruct (flowsInto idx j); simpl; lia.
  - apply NoDup_seq.
  - apply in_seq_size, Hidx.
  - intros i _ Hne.
    replace (bool_decide (i ∈ P ++ [idx])) with (bool_decide (i ∈ P)); [reflexivity|].
    apply bool_decide_ext. set_solver.
Qed.

Lemma received_step (P : list nat) (a a' : list Z) (idx j : nat) :
  (idx < size)%nat -> idx ∉ P ->
  (forall i, i ∈ P -> get a' i = get a i) -> get a' idx = get a idx ->
  received (P ++ [idx]) a' j =
  received P a j + (if flowsInto idx j then get a idx else 0).
Proof.
  intros Hidx Hnot Hsame Hidx'. unfold received.
  rewrite (sumOver_differ_at _
             (fun i => if flowsInto i j && bool_decide (i ∈ P) then get a i else 0)
             idx (seq 0 size)).
  - rewrite (bool_decide_true (idx ∈ P ++ [idx])) by set_solver.
    rewrite (bool_decide_false (idx ∈ P)) by exact Hnot.
    rewrite Hidx'. destruct (flowsInto idx j); simpl; lia.
  - apply NoDup_seq.
  - apply in_seq_size, Hidx.
  - intros i _ Hne.
    replace (bool_decide (i ∈ P ++ [idx])) with (bool_decide (i ∈ P))
      by (apply bool_decide_ext; set_solver).
    destruct (flowsInto i j); [|reflexivity]. simpl.
    case_bool_decide as Hi; [|reflexivity]. apply Hsame, Hi.
Qed.

(** The state of the queue loop: [P] lists the cells processed so far. *)
Record drainInv (P queue : list nat) (flowAccum inDegree : list Z) : Prop := {
  inv_lenA : length flowAccum = size;
  inv_lenD : length inDegree = size;
  inv_deg : forall j, (j < size)%nat -> inDegree !! j = Some (pending P j);
  inv_acc : forall j, (j < size)%nat ->
              flowAccum !! j = Some (1 + received P flowAccum j);
  inv_land : forall i, i ∈ P ++ queue -> (i < size)%nat /\ landMask !! i = Some 1;
  inv_ready : forall j, (j < size)%nat -> landMask !! j = Some 1 ->
                (j ∈ P ++ queue <-> pending P j = 0);
  inv_nodup : NoDup (P ++ queue);
  inv_pos : forall j a, flowAccum !! j = Some a -> 1 <= a;
}.

Lemma get_alter_ne (f : Z -> Z) (a : list Z) (n i : nat) :
  i <> n -> get (alter f n a) i = get a i.
Proof. intros H. unfold get. rewrite list_lookup_alter_ne by auto. reflexivity. Qed.

Lemma drain_step_none (P rest : list nat) (A D : list Z) (idx : nat) :
  drainInv P (idx :: rest) A D -> outflow idx = None ->
  drainInv (P ++ [idx]) rest A D.
Proof.
  intros [HlA HlD Hdeg Hacc Hland Hready Hnd Hpos] Hout.
  assert (Hno : forall j, flowsInto idx j = false).
  { intros j. destruct (flowsInto idx j) eqn:E; [|reflexivity].
    apply flowsInto_true in E as [_ E]. congruence. }
  assert (Hidx : (idx < size)%nat) by (apply Hland; set_solver).
  assert (HnotP : idx ∉ P).
  { apply NoDup_app in Hnd as (_ & Hd & _). intros Hin. apply (Hd idx Hin). left. }
  assert (Hsame : forall x, x ∈ (P ++ [idx]) ++ rest <-> x ∈ P ++ idx :: rest)
    by set_solver.
  assert (Hpend : forall j, pending (P ++ [idx]) j = pending P j).
  { intros j. rewrite pending_step by assumption. rewrite Hno. lia. }
  constructor; auto.
  - intros j Hj. rewrite Hpend. auto.
  - intros j Hj. rewrite (received_step P A A idx j) by auto.
    rewrite Hno, Z.add_0_r. auto.
  - intros i Hi. apply Hland, Hsame, Hi.
  - intros j Hj Hl. rewrite Hsame, Hpend. auto.
  - rewrite <- app_assoc. exact Hnd.
Qed.

Lemma drain_step_some (P rest : list nat) (A D : list Z) (idx n : nat) :
  drainInv P (idx :: rest) A D -> outflow idx = Some n ->
  let A' := alter (fun a => a + default 0 (A !! idx)) n A in
  let D' := alter Z.pred n D in
  let queue' :=
    if bool_decide (D' !! n = Some 0) && bool_decide (landMask !! n = Some 1)
    then rest ++ [n] else rest in
  drainInv (P ++ [idx]) queue' A' D'.
Proof.
  intros [HlA HlD Hdeg Hacc Hland Hready Hnd Hpos] Hout A' D' queue'.
  destruct (outflow_Some idx n Hout) as [Hn Hne].
  destruct (Hland idx ltac:(set_solver)) as [Hidx Hlidx].
  assert (HnotP : idx ∉ P).
  { apply NoDup_app in Hnd as (_ & Hd & _). intros Hin. apply (Hd idx Hin). left. }
  assert (Hflow : forall j, flowsInto idx j = bool_decide (j = n)).
  { intros j. case_bool_decide as E.
    - subst j. apply flowsInto_true. auto.
    - destruct (flowsInto idx j) eqn:F; [|reflexivity].
      apply flowsInto_true in F as [_ F]. congruence. }
  assert (HnOld : n ∉ P ++ idx :: rest).
  { intros Hin. destruct (Hland n Hin) as [_ Hln].
    apply (Hready n Hn Hln) in Hin.
    rewrite pending_zero in Hin. apply HnotP, (Hin idx Hidx).
    rewrite Hflow. apply bool_decide_eq_true. reflexivity. }
  assert (HnP : n ∉ P) by set_solver.
  assert (Hpend : forall j, pending (P ++ [idx]) j
                            = pending P j - (if bool_decide (j = n) then 1 else 0)).
  { intros j. rewrite pending_step by assumption. rewrite Hflow. reflexivity. }
  assert (HD' : forall j, (j < size)%nat -> D' !! j = Some (pending (P ++ [idx]) j)).
  { intros j Hj. unfold D'. rewrite Hpend. case_bool_decide as E.
    - subst j. rewrite list_lookup_alter_eq, Hdeg by assumption. simpl. apply (f_equal Some); lia.
    - rewrite list_lookup_alter_ne by auto. rewrite Hdeg by assumption. apply (f_equal Some); lia. }
  assert (Hq : forall i, i ∈ (P ++ [idx]) ++ queue' <->
                         i ∈ P ++ idx :: rest \/
                         (i = n /\ D' !! n = Some 0 /\ landMask !! n = Some 1)).
  { intros i. unfold queue'. destruct (bool_decide (D' !! n = Some 0)) eqn:E1;
      destruct (bool_decide (landMask !! n = Some 1)) eqn:E2; simpl;
      try apply bool_decide_eq_true in E1; try apply bool_decide_eq_true in E2;
      try apply bool_decide_eq_false in E1; try apply bool_decide_eq_false in E2;
      set_solver. }
  constructor.
  - unfold A'. rewrite length_alter. exact HlA.
  - unfold D'. rewrite length_alter. exact HlD.
  - exact HD'.
  - intros j Hj.
    rewrite (received_step P A A' idx j); auto.
    + rewrite Hflow. unfold A'. case_bool_decide as E.
      * subst j. rewrite list_lookup_alter_eq, (Hacc n Hn). simpl.
        apply (f_equal Some); unfold get; lia.
      * rewrite list_lookup_alter_ne by auto. rewrite Hacc by assumption.
        apply (f_equal Some); lia.
    + intros i Hi. apply get_alter_ne. intros ->. auto.
    + apply get_alter_ne. auto.
  - intros i Hi. apply Hq in Hi as [Hi|(-> & _ & Hl)]; auto.
  - intros j Hj Hl. rewrite Hq, Hpend. case_bool_decide as E.
    + subst j. rewrite (HD' n Hn), Hpend, bool_decide_true by reflexivity.
      split.
      * intros [Hin|(_ & Hz & _)]; [contradiction|]. injection Hz as Hz. lia.
      * intros Hz. right. split; [reflexivity|]. split; [|exact Hl]. apply (f_equal Some); lia.
    + rewrite Z.sub_0_r. rewrite <- (Hready j Hj Hl). split; [|tauto].
      intros [Hin|(-> & _)]; [exact Hin|congruence].
  - unfold queue'. destruct (_ && _).
    + rewrite <- app_assoc. simpl.
      replace (P ++ idx :: rest ++ [n]) with ((P ++ idx :: rest) ++ [n])
        by (rewrite <- app_assoc; reflexivity).
      apply NoDup_app. split; [exact Hnd|]. split; [|apply NoDup_singleton].
      intros i Hi Hin. apply list_elem_of_singleton in Hin. subst i. auto.
    + rewrite <- app_assoc. exact Hnd.
  - intros j a. unfold A'. destruct (decide (j = n)) as [->|E].
    + rewrite list_lookup_alter_eq. destruct (A !! n) as [an|] eqn:Han; [|discriminate].
      simpl. intros [= <-]. pose proof (Hpos n an Han) as Hpn.
      destruct (A !! idx) as [ai|] eqn:Hai; simpl; [|lia].
      pose proof (Hpos idx ai Hai). lia.
    + rewrite list_lookup_alter_ne by auto. apply Hpos.
Qed.

(** The loop runs to the end within its budget. *)
Lemma drain_completes (fuel : nat) :
  forall (P queue : list nat) (A D : list Z),
    drainInv P queue A D -> (size <= fuel + length P)%nat ->
    exists A' D' P', drain fuel queue A D = Some A' /\ drainInv P' [] A' D'.
Proof.
  induction fuel as [|fuel IH]; intros P queue A D Hinv Hfuel.
  - destruct queue as [|idx rest]; [exists A, D, P; split; [reflexivity|exact Hinv]|].
    exfalso.
    assert (Hsub : P ++ idx :: rest ⊆+ seq 0 size).
    { apply NoDup_submseteq; [apply (inv_nodup _ _ _ _ Hinv)|].
      intros i Hi. apply in_seq_size. apply (inv_land _ _ _ _ Hinv). exact Hi. }
    apply submseteq_length in Hsub. rewrite length_app, length_seq in Hsub.
    simpl in Hsub. lia.
  - destruct queue as [|idx rest]; [exists A, D, P; split; [reflexivity|exact Hinv]|].
    simpl. destruct (outflow idx) as [n|] eqn:Hout.
    + apply (IH (P ++ [idx])).
      * apply drain_step_some; assumption.
      * rewrite length_app. simpl. lia.
    + apply (IH (P ++ [idx])).
      * apply drain_step_none; assumption.
      * rewrite length_app. simpl. lia.
Qed.

(** The in-degrees built by the first loop, for a binary land mask. *)
Lemma buildInDegree_spec :
  (forall i, (i < size)%nat -> landMask !! i = Some 0 \/ landMask !! i = Some 1) ->
  let D := buildInDegree flowDir landMask width height size in
  length D = size /\ forall j, (j < size)%nat -> D !! j = Some (pending [] j).
Proof.
  intros Hbin D.
  assert (H : length D = size /\
              forall j, (j < size)%nat ->
                D !! j = Some (sumOver (fun i => if flowsInto i j then 1 else 0)
                                       (seq 0 size))).
  { unfold D, buildInDegree.
    apply (foldl_seq_invariant
             (fun k (d : list Z) =>
                length d = size /\
                forall j, (j < size)%nat ->
                  d !! j = Some (sumOver (fun i => if flowsInto i j then 1 else 0)
                                         (seq 0 k)))).
    - split; [apply length_replicate|]. intros j Hj.
      rewrite lookup_replicate_2 by exact Hj. reflexivity.
    - intros i d Hi [Hlen Hd]. unfold countInflow.
      assert (Hsum : forall j,
                sumOver (fun i => if flowsInto i j then 1 else 0) (seq 0 (S i)) =
                sumOver (fun i => if flowsInto i j then 1 else 0) (seq 0 i)
                + (if flowsInto i j then 1 else 0)).
      { intros j. rewrite seq_S, sumOver_app. unfold sumOver at 2. simpl. lia. }
      destruct (Hbin i Hi) as [Hl|Hl]; rewrite Hl.
      + split; [exact Hlen|]. intros j Hj. rewrite Hsum, Hd by exact Hj.
        replace (flowsInto i j) with false; [apply (f_equal Some); lia|].
        symmetry. apply not_true_iff_false. rewrite flowsInto_true. intros [E _].
        congruence.
      + destruct (outflow i) as [n|] eqn:Hout.
        * split; [rewrite length_alter; exact Hlen|]. intros j Hj.
          rewrite Hsum. destruct (decide (j = n)) as [->|Hjn].
          -- rewrite list_lookup_alter_eq, Hd by exact Hj. simpl.
             replace (flowsInto i n) with true
               by (symmetry; apply flowsInto_true; auto).
             apply (f_equal Some); lia.
          -- rewrite list_lookup_alter_ne by auto. rewrite Hd by exact Hj.
             replace (flowsInto i j) with false; [apply (f_equal Some); lia|].
             symmetry. apply not_true_iff_false. rewrite flowsInto_true.
             intros [_ E]. congruence.
        * split; [exact Hlen|]. intros j Hj. rewrite Hsum, Hd by exact Hj.
          replace (flowsInto i j) with false; [apply (f_equal Some); lia|].
          symmetry. apply not_true_iff_false. rewrite flowsInto_true.
          intros [_ E]. congruence. }
  destruct H as [Hlen Hd]. split; [exact Hlen|]. intros j Hj.
  rewrite Hd by exact Hj. apply (f_equal Some). unfold pending.
  apply sumOver_ext. intros i _. rewrite andb_true_r. reflexivity.
Qed.

Lemma drainInv_initial :
  (forall i, (i < size)%nat -> landMask !! i = Some 0 \/ landMask !! i = Some 1) ->
  let D := buildInDegree flowDir landMask width height size in
  drainInv [] (sources landMask D size) (replicate size 1) D.
Proof.
  intros Hbin D. destruct (buildInDegree_spec Hbin) as [Hlen Hd]. fold D in Hlen, Hd.
  assert (Hsrc : forall i, i ∈ sources landMask D size <->
            (i < size)%nat /\ landMask !! i = Some 1 /\ D !! i = Some 0).
  { intros i. unfold sources, isSource. rewrite list_elem_of_filter, in_seq_size.
    rewrite andb_true_iff, !bool_decide_eq_true. tauto. }
  constructor; simpl.
  - apply length_replicate.
  - exact Hlen.
  - exact Hd.
  - intros j Hj. rewrite lookup_replicate_2 by exact Hj. apply (f_equal Some).
    unfold received. rewrite sumOver_all_zero; [lia|].
    intros i _. rewrite andb_false_r. reflexivity.
  - intros i Hi. apply Hsrc in Hi. tauto.
  - intros j Hj Hl. rewrite Hsrc, (Hd j Hj). split.
    + intros (_ & _ & [= E]). exact E.
    + intros E. rewrite E. auto.
  - apply NoDup_filter, NoDup_seq.
  - intros j a Ha. apply lookup_replicate in Ha as [-> _]. lia.
Qed.

Lemma sumOver_nonzero f l : sumOver f l <> 0 -> exists i, i ∈ l /\ f i <> 0.
Proof.
  induction l as [|a l IH]; intros H; [exfalso; apply H; reflexivity|].
  destruct (decide (f a = 0)) as [E|E].
  - destruct IH as (i & Hi & Hf).
    + intros Hz. apply H. unfold sumOver in *. simpl. lia.
    + exists i. split; [right; exact Hi|exact Hf].
  - exists a. split; [left|exact E].
Qed.

Section Acyclic.
Variable rank : nat -> nat.
Hypothesis flow_descends : forall i j, flowsInto i j = true -> (rank j < rank i)%nat.

(** From an unprocessed land cell one can climb to unprocessed land cells of
    ever higher rank. *)
Lemma unprocessed_climbs (P : list nat) (A D : list Z) (m : nat) :
  drainInv P [] A D ->
  forall j, (j < size)%nat -> landMask !! j = Some 1 -> j ∉ P ->
  exists k, (k < size)%nat /\ landMask !! k = Some 1 /\ (k ∉ P) /\
            (rank j + m <= rank k)%nat.
Proof.
  intros Hinv. induction m as [|m IH]; intros j Hj Hl Hnot.
  - exists j. repeat split; auto. lia.
  - destruct (IH j Hj Hl Hnot) as (k & Hk & Hlk & HkP & Hrk).
    assert (Hp : pending P k <> 0).
    { intros Hz. apply HkP. apply (inv_ready _ _ _ _ Hinv k Hk Hlk) in Hz.
      rewrite app_nil_r in Hz. exact Hz. }
    apply sumOver_nonzero in Hp as (i & Hi & Hf).
    apply in_seq_size in Hi.
    destruct (flowsInto i k) eqn:Hflow; [|simpl in Hf; congruence].
    destruct (bool_decide (i ∈ P)) eqn:HiP; [simpl in Hf; congruence|].
    apply bool_decide_eq_false in HiP.
    exists i. split; [exact Hi|]. split; [apply flowsInto_true in Hflow; tauto|].
    split; [exact HiP|]. specialize (flow_descends i k Hflow). lia.
Qed.

Lemma all_land_processed (P : list nat) (A D : list Z) :
  drainInv P [] A D ->
  forall j, (j < size)%nat -> landMask !! j = Some 1 -> j ∈ P.
Proof.
  intros Hinv j Hj Hl. destruct (decide (j ∈ P)) as [Hin|Hnot]; [exact Hin|].
  exfalso.
  destruct (unprocessed_climbs P A D (S (max_list (List.map rank (seq 0 size))))
              Hinv j Hj Hl Hnot) as (k & Hk & _ & _ & Hrk).
  assert (Hle : (rank k <= max_list (List.map rank (seq 0 size)))%nat).
  { apply max_list_elem_of_le. apply list_elem_of_fmap. exists k.
    split; [reflexivity|]. apply in_seq_size, Hk. }
  lia.
Qed.

Lemma drainInv_final (P : list nat) (A D : list Z) (j : nat) :
  drainInv P [] A D -> (j < size)%nat ->
  exists a, A !! j = Some a /\ 1 <= a /\
            a = 1 + inflow flowDir landMask width height A j.
Proof.
  intros Hinv Hj. exists (1 + received P A j).
  pose proof (inv_acc _ _ _ _ Hinv j Hj) as Ha.
  split; [exact Ha|]. split; [apply (inv_pos _ _ _ _ Hinv j), Ha|].
  apply (f_equal (Z.add 1)). unfold received, inflow, sumOver.
  apply (f_equal (foldr Z.add 0)). apply map_ext_in. intros i Hi.
  apply list_elem_of_In, in_seq_size in Hi.
  destruct (flowsInto i j) eqn:Hflow; [|reflexivity]. simpl.
  rewrite bool_decide_true; [reflexivity|].
  apply (all_land_processed P A D Hinv i Hi).
  apply flowsInto_true in Hflow. tauto.
Qed.

End Acyclic.
End FlowAccumulationFacts.

(** Flow directions that descend along a rank have no cycle: the queue loop
    then processes every land cell, and the accumulations add up. *)
Lemma flow_conservation
    (flowDir landMask : list Z) (width height : nat) (rank : nat -> nat) :
  (forall i, (i < width * height)%nat ->
     landMask !! i = Some 0 \/ landMask !! i = Some 1) ->
  (forall i j, Hydrology.flowsInto flowDir landMask width height i j = true ->
     (rank j < rank i)%nat) ->
  exists flowAccum,
    Hydrology.calculateFlowAccumulation flowDir landMask width height = Some flowAccum /\
    length flowAccum = (width * height)%nat /\
    forall j, (j < width * height)%nat ->
      exists a, flowAccum !! j = Some a /\ 1 <= a /\
        a = 1 + Hydrology.inflow flowDir landMask width height flowAccum j.
Proof.
  intros Hbin Hrank. unfold Hydrology.calculateFlowAccumulation.
  destruct (drain_completes flowDir landMask width height (width * height) []
              _ _ _ (drainInv_initial flowDir landMask width height Hbin))
    as (A & D & P & Hrun & Hinv).
  { simpl. lia. }
  exists A. split; [exact Hrun|]. split; [apply (inv_lenA _ _ _ _ _ _ _ _ Hinv)|].
  intros j Hj. apply (drainInv_final flowDir landMask width height rank Hrank P A D j Hinv Hj).
Qed.

(** *** Flow directions *)

Section FlowDirectionFacts.
Import Hydrology.
Variables (heightMap : list Q) (landMask : list Z) (width height : nat).

Local Abbreviation size := (width * height)%nat.

Lemma sumOver_le f g l :
  (forall i, i ∈ l -> f i <= g i) -> sumOver f l <= sumOver g l.
Proof.
  unfold sumOver. induction l as [|a l IH]; intros H; simpl; [lia|].
  pose proof (H a ltac:(left)).
  assert (foldr Z.add 0 (List.map f l) <= foldr Z.add 0 (List.map g l)); [|lia].
  apply IH. intros i Hi. apply H. right. exact Hi.
Qed.

Lemma sumOver_lt f g l a :
  (forall i, i ∈ l -> f i <= g i) -> a ∈ l -> f a < g a ->
  sumOver f l < sumOver g l.
Proof.
  induction l as [|b l IH]; intros H Ha Hlt; [inversion Ha|].
  unfold sumOver. simpl. fold (sumOver f l). fold (sumOver g l).
  pose proof (H b ltac:(left)) as Hb.
  assert (Hl : forall i, i ∈ l -> f i <= g i) by (intros i Hi; apply H; right; exact Hi).
  apply elem_of_cons in Ha as [->|Ha].
  - pose proof (sumOver_le f g l Hl). lia.
  - specialize (IH Hl Ha Hlt). lia.
Qed.

(** Cell [k] lies strictly below cell [i]. *)
Definition below (i k : nat) : bool :=
  match heightMap !! k, heightMap !! i with
  | Some a, Some b => Num.Qltb a b
  | _, _ => false
  end.

(** The rank of a cell: the number of cells strictly below it. *)
Definition heightRank (i : nat) : nat :=
  Z.to_nat (sumOver (fun k => if below i k then 1 else 0) (seq 0 size)).

Lemma heightRank_lt (i j : nat) (c b : Q) :
  (j < size)%nat -> heightMap !! i = Some c -> heightMap !! j = Some b ->
  (b < c)%Q -> (heightRank j < heightRank i)%nat.
Proof.
  intros Hj Hi Hjb Hlt. unfold heightRank.
  assert (H0 : 0 <= sumOver (fun k => if below j k then 1 else 0) (seq 0 size)).
  { apply sumOver_nonneg. intros k _. destruct (below j k); lia. }
  assert (H1 : sumOver (fun k => if below j k then 1 else 0) (seq 0 size)
               < sumOver (fun k => if below i k then 1 else 0) (seq 0 size)).
  { apply (sumOver_lt _ _ _ j).
    - intros k _. unfold below. rewrite Hi, Hjb.
      destruct (heightMap !! k) as [a|]; [|lia].
      destruct (Num.Qltb a b) eqn:E; [|destruct (Num.Qltb a c); lia].
      apply Qltb_lt in E.
      replace (Num.Qltb a c) with true; [lia|].
      symmetry. apply Qltb_lt. eapply Qlt_trans; eassumption.
    - apply elem_of_seq. lia.
    - unfold below. rewrite Hi, Hjb.
      replace (Num.Qltb b b) with false.
      + replace (Num.Qltb b c) with true; [lia|]. symmetry. apply Qltb_lt, Hlt.
      + symmetry. apply not_true_iff_false. rewrite Qltb_lt. apply Qlt_irrefl. }
  lia.
Qed.

(** The direction chosen for a cell points to a strictly lower neighbour. *)
Lemma steepestDir_descends (idx : nat) :
  steepestDir heightMap width height idx = -1 \/
  exists n c b,
    neighbour width height idx (steepestDir heightMap width height idx) = Some n /\
    heightMap !! idx = Some c /\ heightMap !! n = Some b /\ (b < c)%Q.
Proof.
  unfold steepestDir.
  apply (foldl_invariant
           (fun st : Z * Q =>
              st.1 = -1 \/
              exists n c b,
                neighbour width height idx st.1 = Some n /\
                heightMap !! idx = Some c /\ heightMap !! n = Some b /\ (b < c)%Q)).
  - left. reflexivity.
  - intros st d Hst. unfold steepen.
    destruct (DX !! d) as [dx|] eqn:Hdx; [|exact Hst].
    destruct (DY !! d) as [dy|] eqn:Hdy; [|exact Hst].
    destruct (cellAt _ _ _ _) as [n|] eqn:Hc; [|exact Hst].
    destruct (heightMap !! idx) as [c|] eqn:Hi; [|exact Hst].
    destruct (heightMap !! n) as [b|] eqn:Hn; [|exact Hst].
    destruct (Num.Qltb 0 (c - b)) eqn:Hpos; [|exact Hst].
    destruct (Num.Qltb st.2 _); [|exact Hst].
    right. exists n, c, b. simpl. split; [|split; [reflexivity|split; [exact Hn|]]].
    + unfold neighbour.
      replace (Z.of_nat d <? 0) with false by (symmetry; apply Z.ltb_ge; lia).
      rewrite Nat2Z.id, Hdx, Hdy. exact Hc.
    + apply Qltb_lt in Hpos. apply (Qplus_lt_l _ _ (- b)). 
      rewrite Qplus_opp_r. exact Hpos.
Qed.

Lemma calculateFlowDirection_descends (i j : nat) :
  flowsInto (calculateFlowDirection heightMap landMask width height)
            landMask width height i j = true ->
  (heightRank j < heightRank i)%nat.
Proof.
  intros H. apply flowsInto_true in H as [Hland Hout].
  unfold outflow in Hout.
  destruct (calculateFlowDirection heightMap landMask width height !! i)
    as [dir|] eqn:Hdir; [|discriminate Hout].
  unfold calculateFlowDirection in Hdir. rewrite list_lookup_fmap in Hdir.
  destruct (seq 0 size !! i) as [i'|] eqn:Hseq; [|discriminate Hdir].
  apply lookup_seq in Hseq as [-> Hi]. simpl in Hdir.
  rewrite bool_decide_false in Hdir by congruence. injection Hdir as <-.
  destruct (steepestDir_descends i) as [Hneg|(n & c & b & Hn & Hc & Hb & Hlt)].
  - rewrite Hneg in Hout. discriminate Hout.
  - rewrite Hn in Hout. injection Hout as <-.
    destruct (neighbour_Some _ _ _ _ _ Hn) as [Hlt' _].
    apply (heightRank_lt i n c b); assumption.
Qed.

End FlowDirectionFacts.

(** In the pipeline the flow directions are those of
    [calculateFlowDirection], which descend along the heights: there the
    conservation holds for every height map and every binary land mask. *)
Lemma flow_conservation_in_pipeline
    (heightMap : list Q) (landMask : list Z) (width height : nat) :
  (forall i, (i < width * height)%nat ->
     landMask !! i = Some 0 \/ landMask !! i = Some 1) ->
  let flowDir := Hydrology.calculateFlowDirection heightMap landMask width height in
  exists flowAccum,
    Hydrology.calculateFlowAccumulation flowDir landMask width height = Some flowAccum /\
    length flowAccum = (width * height)%nat /\
    forall j, (j < width * height)%nat ->
      exists a, flowAccum !! j = Some a /\ 1 <= a /\
        a = 1 + Hydrology.inflow flowDir landMask width height flowAccum j.
Proof.
  intros Hbin flowDir.
  apply (flow_conservation flowDir landMask width height
           (heightRank heightMap width height) Hbin).
  apply calculateFlowDirection_descends.
Qed.



(** ** Water distance *)

(** The order in which the distance array decreases: first the number of
    unreached cells, then the sum of the finite distances. *)
Definition lexLt (a b : nat * nat) : Prop :=
  (a.1 < b.1)%nat \/ (a.1 = b.1 /\ (a.2 < b.2)%nat).

Lemma lexLt_wf : well_founded lexLt.
Proof.
  intros [a b]. revert b.
  induction a as [a IHa] using lt_wf_ind. intros b.
  induction b as [b IHb] using lt_wf_ind.
  constructor. intros [a' b'] [Hlt|[Heq Hlt]]; simpl in *.
  - apply IHa. exact Hlt.
  - subst a'. apply IHb. exact Hlt.
Qed.

Lemma lexLt_trans (a b c : nat * nat) : lexLt a b -> lexLt b c -> lexLt a c.
Proof. unfold lexLt. intros [?|[? ?]] [?|[? ?]]; lia. Qed.

Lemma sum_list_with_insert {A} (f : A -> nat) (l : list A) (n : nat) (x y : A) :
  l !! n = Some x ->
  (sum_list_with f (<[n := y]> l) + f x = sum_list_with f l + f y)%nat.
Proof.
  revert n. induction l as [|a l IH]; intros n Hn; [discriminate Hn|].
  destruct n as [|n]; simpl in *.
  - injection Hn as ->. lia.
  - specialize (IH n Hn). lia.
Qed.

Section WaterDistanceFacts.
Import Hydrology.
Variables (landMask rivers lakeMask : list Z) (width height : nat).

Local Abbreviation size := (width * height)%nat.
Local Abbreviation isWater := (isWater landMask rivers lakeMask).
Local Abbreviation relax := (relax width height).
Local Abbreviation bfs := (bfs width height).
Local Abbreviation cellAt := (cellAt width height).

Definition unreachedCount (distance : list Dist) : nat :=
  sum_list_with (fun d => match d with Unreached => 1 | At _ => 0 end)%nat distance.

Definition finiteSum (distance : list Dist) : nat :=
  sum_list_with (fun d => match d with Unreached => 0%nat | At u => Z.to_nat u end)
                distance.

Definition measure (distance : list Dist) : nat * nat :=
  (unreachedCount distance, finiteSum distance).

Definition finite (d : option Dist) : Prop := exists u, d = Some (At u).

Definition stepDist (d : nat) : Z := if Nat.even d then unit else SQRT2.

Lemma stepDist_pos (d : nat) : 0 < stepDist d.
Proof. unfold stepDist, unit, SQRT2. destruct (Nat.even d); lia. Qed.

(** All the neighbours of [(x, y)] on the map have a finite distance. *)
Definition neighboursFinite (distance : list Dist) (x y : Z) : Prop :=
  forall d dx dy n,
    DX !! d = Some dx -> DY !! d = Some dy -> cellAt (x + dx) (y + dy) = Some n ->
    finite (distance !! n).

(** The state of the breadth-first loop. *)
Record coreInv (queue : list (Z * Z * Z)) (distance : list Dist) : Prop := {
  bfs_len : length distance = size;
  bfs_water : forall i, (i < size)%nat -> isWater i = true ->
                distance !! i = Some (At 0);
  bfs_land : forall i u, distance !! i = Some (At u) -> isWater i = false -> 0 < u;
  bfs_queue : forall x y d, (x, y, d) ∈ queue ->
                0 <= d /\ 0 <= x < Z.of_nat width /\ 0 <= y < Z.of_nat height;
}.

(** Every water cell is still queued with distance 0, or has been expanded. *)
Definition sourcesInv (queue : list (Z * Z * Z)) (distance : list Dist) : Prop :=
  forall x y n, cellAt x y = Some n -> isWater n = true ->
    (x, y, 0) ∈ queue \/ neighboursFinite distance x y.

Definition bfsInv (queue : list (Z * Z * Z)) (distance : list Dist) : Prop :=
  coreInv queue distance /\ sourcesInv queue distance.

Lemma coreInv_nonneg queue distance i u :
  coreInv queue distance -> distance !! i = Some (At u) -> 0 <= u.
Proof.
  intros Hinv Hi. destruct (isWater i) eqn:Hw.
  - assert (Hlt : (i < size)%nat).
    { rewrite <- (bfs_len _ _ Hinv). eapply lookup_lt_Some, Hi. }
    rewrite (bfs_water _ _ Hinv i Hlt Hw) in Hi. injection Hi as <-. lia.
  - pose proof (bfs_land _ _ Hinv i u Hi Hw). lia.
Qed.

(** One direction of the relaxation, spelled out. *)
Lemma relax_eq (x y dist : Z) (distance : list Dist) (queue : list (Z * Z * Z))
    (d : nat) (dx dy : Z) :
  DX !! d = Some dx -> DY !! d = Some dy ->
  relax x y dist (distance, queue) d =
  match cellAt (x + dx) (y + dy) with
  | Some n =>
      if closer (dist + stepDist d) (distance !! n)
      then (<[n := At (dist + stepDist d)]> distance,
            queue ++ [(x + dx, y + dy, dist + stepDist d)])
      else (distance, queue)
  | None => (distance, queue)
  end.
Proof. intros Hx Hy. unfold Hydrology.relax. rewrite Hx, Hy. reflexivity. Qed.

Lemma direction_defined (d : nat) :
  (d < 8)%nat -> exists dx dy, DX !! d = Some dx /\ DY !! d = Some dy.
Proof.
  intros Hd. do 8 (destruct d as [|d]; [simpl; eauto|]). lia.
Qed.

Lemma measure_reach (distance : list Dist) (n : nat) (v : Z) :
  distance !! n = Some Unreached ->
  lexLt (measure (<[n := At v]> distance)) (measure distance).
Proof.
  intros Hn. left. unfold measure, unreachedCount. simpl.
  pose proof (sum_list_with_insert
                (fun d => match d with Unreached => 1 | At _ => 0 end)%nat
                distance n Unreached (At v) Hn). simpl in *. lia.
Qed.

Lemma measure_improve (distance : list Dist) (n : nat) (u v : Z) :
  distance !! n = Some (At u) -> 0 <= v < u ->
  lexLt (measure (<[n := At v]> distance)) (measure distance).
Proof.
  intros Hn Hv. right. unfold measure, unreachedCount, finiteSum. simpl.
  pose proof (sum_list_with_insert
                (fun d => match d with Unreached => 1 | At _ => 0 end)%nat
                distance n (At u) (At v) Hn).
  pose proof (sum_list_with_insert
                (fun d => match d with Unreached => 0%nat | At u => Z.to_nat u end)
                distance n (At u) (At v) Hn).
  simpl in *. lia.
Qed.

(** What the loop over the directions has established after [k] of them. *)
Record relaxInv (x y : Z) (distance0 : list Dist) (queue0 : list (Z * Z * Z))
    (k : nat) (st : list Dist * list (Z * Z * Z)) : Prop := {
  rel_core : coreInv st.2 st.1;
  rel_queue : forall e, e ∈ queue0 -> e ∈ st.2;
  rel_finite : forall i, finite (distance0 !! i) -> finite (st.1 !! i);
  rel_done : forall d dx dy n, (d < k)%nat ->
               DX !! d = Some dx -> DY !! d = Some dy ->
               cellAt (x + dx) (y + dy) = Some n -> finite (st.1 !! n);
  rel_measure : st = (distance0, queue0) \/ lexLt (measure st.1) (measure distance0);
}.

Lemma relax_step (x y dist : Z) (distance0 : list Dist) (queue0 : list (Z * Z * Z))
    (k : nat) (st : list Dist * list (Z * Z * Z)) :
  0 <= dist -> (k < 8)%nat ->
  relaxInv x y distance0 queue0 k st ->
  relaxInv x y distance0 queue0 (S k) (relax x y dist st k).
Proof.
  intros Hdist Hk [Hcore Hq Hfin Hdone Hmeas]. destruct st as [D Q].
  simpl in Hcore, Hq, Hfin, Hdone, Hmeas.
  destruct (direction_defined k Hk) as (dx & dy & Hdx & Hdy).
  rewrite (relax_eq x y dist D Q k dx dy Hdx Hdy).
  pose proof (stepDist_pos k) as Hstep.
  assert (Hdone' : forall D' : list Dist,
            (forall i, finite (D !! i) -> finite (D' !! i)) ->
            (forall n, cellAt (x + dx) (y + dy) = Some n -> finite (D' !! n)) ->
            forall d dx' dy' n, (d < S k)%nat ->
              DX !! d = Some dx' -> DY !! d = Some dy' ->
              cellAt (x + dx') (y + dy') = Some n -> finite (D' !! n)).
  { intros D' Hmono Hnew d dx' dy' n Hd Hx Hy Hc.
    destruct (decide (d = k)) as [->|Hne].
    - rewrite Hdx in Hx. rewrite Hdy in Hy. injection Hx as <-. injection Hy as <-.
      apply Hnew, Hc.
    - apply Hmono. apply (Hdone d dx' dy' n); auto. lia. }
  destruct (cellAt (x + dx) (y + dy)) as [n|] eqn:Hc.
  2:{ constructor; simpl; auto. apply Hdone'; auto. intros n Hn. discriminate Hn. }
  destruct (cellAt_Some _ _ _ _ _ Hc) as (Hbx & Hby & Hn & Hlt).
  assert (Hlen : (n < length D)%nat) by (rewrite (bfs_len _ _ Hcore); exact Hlt).
  destruct (D !! n) as [old|] eqn:Hold;
    [|apply lookup_ge_None in Hold; lia].
  destruct (closer (dist + stepDist k) (Some old)) eqn:Hcl.
  - (* the neighbour is improved *)
    assert (Hlex : lexLt (measure (<[n := At (dist + stepDist k)]> D)) (measure D)).
    { destruct old as [u|]; simpl in Hcl.
      - apply Z.ltb_lt in Hcl. apply (measure_improve D n u); [exact Hold|lia].
      - apply measure_reach. exact Hold. }
    assert (Hmono : forall i, finite (D !! i) ->
              finite (<[n := At (dist + stepDist k)]> D !! i)).
    { intros i Hi. destruct (decide (i = n)) as [->|Hne].
      - rewrite list_lookup_insert_eq by exact Hlen. eexists. reflexivity.
      - rewrite list_lookup_insert_ne by auto. exact Hi. }
    constructor; simpl.
    + constructor.
      * rewrite length_insert. apply (bfs_len _ _ Hcore).
      * intros i Hi Hw. destruct (decide (i = n)) as [->|Hne].
        -- rewrite (bfs_water _ _ Hcore n Hi Hw) in Hold. injection Hold as <-.
           simpl in Hcl. apply Z.ltb_lt in Hcl. lia.
        -- rewrite list_lookup_insert_ne by auto. apply (bfs_water _ _ Hcore); auto.
      * intros i u Hi Hw. destruct (decide (i = n)) as [->|Hne].
        -- rewrite list_lookup_insert_eq in Hi by exact Hlen. injection Hi as <-. lia.
        -- rewrite list_lookup_insert_ne in Hi by auto.
           apply (bfs_land _ _ Hcore i u Hi Hw).
      * intros x' y' d' Hin. apply elem_of_app in Hin as [Hin|Hin].
        -- apply (bfs_queue _ _ Hcore), Hin.
        -- apply list_elem_of_singleton in Hin. injection Hin as -> -> ->. lia.
    + intros e He. apply elem_of_app. left. apply Hq, He.
    + intros i Hi. apply Hmono, Hfin, Hi.
    + apply Hdone'; [exact Hmono|]. intros n' [= <-].
      rewrite list_lookup_insert_eq by exact Hlen. eexists. reflexivity.
    + right. destruct Hmeas as [[= -> ->]|Hm]; [exact Hlex|].
      eapply lexLt_trans; eassumption.
  - (* the neighbour is left alone: it already has a finite distance *)
    constructor; simpl; auto.
    apply Hdone'; auto. intros n' [= <-]. rewrite Hold.
    destruct old as [u|]; [eexists; reflexivity|discriminate Hcl].
Qed.

Lemma relax_all (x y dist : Z) (distance : list Dist) (queue : list (Z * Z * Z)) :
  0 <= dist -> coreInv queue distance ->
  relaxInv x y distance queue 8 (foldl (relax x y dist) (distance, queue) (seq 0 8)).
Proof.
  intros Hdist Hcore.
  apply (foldl_seq_invariant (relaxInv x y distance queue)).
  - constructor; simpl; auto. intros d dx dy n Hd. lia.
  - intros i st Hi Hst. apply relax_step; assumption.
Qed.

Lemma coreInv_tail (e : Z * Z * Z) (rest : list (Z * Z * Z)) (distance : list Dist) :
  coreInv (e :: rest) distance -> coreInv rest distance.
Proof.
  intros [H1 H2 H3 H4]. constructor; auto.
  intros x y d Hin. apply H4. right. exact Hin.
Qed.

(** One iteration of the breadth-first loop. *)
Lemma bfs_pop (x y dist : Z) (rest : list (Z * Z * Z)) (distance : list Dist) :
  bfsInv ((x, y, dist) :: rest) distance ->
  if stale dist (distance !! Z.to_nat (y * Z.of_nat width + x))
  then bfsInv rest distance
  else
    let st := foldl (relax x y dist) (distance, rest) (seq 0 8) in
    bfsInv st.2 st.1 /\
    (st = (distance, rest) \/ lexLt (measure st.1) (measure distance)).
Proof.
  intros [Hcore Hsrc].
  destruct (bfs_queue _ _ Hcore x y dist ltac:(left)) as (Hd & Hx & Hy).
  destruct (stale dist _) eqn:Hstale.
  - split; [eapply coreInv_tail, Hcore|].
    intros cx cy n Hc Hw. destruct (Hsrc cx cy n Hc Hw) as [Hin|Hnb]; [|right; exact Hnb].
    apply elem_of_cons in Hin as [[= -> -> <-]|Hin]; [|left; exact Hin].
    exfalso. destruct (cellAt_Some _ _ _ _ _ Hc) as (_ & _ & Hn & Hlt).
    replace (Z.to_nat (y * Z.of_nat width + x)) with n in Hstale by lia.
    rewrite (bfs_water _ _ Hcore n Hlt Hw) in Hstale. simpl in Hstale.
    apply Z.ltb_lt in Hstale. lia.
  - pose proof (relax_all x y dist distance rest Hd (coreInv_tail _ _ _ Hcore))
      as [Hcore' Hq Hfin Hdone Hmeas].
    cbv zeta. split; [|exact Hmeas]. split; [exact Hcore'|].
    intros cx cy n Hc Hw. destruct (Hsrc cx cy n Hc Hw) as [Hin|Hnb].
    + apply elem_of_cons in Hin as [[= -> -> <-]|Hin]; [|left; apply Hq, Hin].
      right. intros d dx dy n' Hdx Hdy Hc'.
      destruct (direction_offsets d dx dy Hdx Hdy) as (Hd8 & _).
      apply (Hdone d dx dy n' Hd8 Hdx Hdy Hc').
    + right. intros d dx dy n' Hdx Hdy Hc'. apply Hfin. apply (Hnb d dx dy n'); auto.
Qed.

Lemma bfs_S (fuel : nat) (x y dist : Z) (rest : list (Z * Z * Z))
    (distance : list Dist) :
  bfs (S fuel) ((x, y, dist) :: rest) distance =
  if stale dist (distance !! Z.to_nat (y * Z.of_nat width + x))
  then bfs fuel rest distance
  else bfs fuel (foldl (relax x y dist) (distance, rest) (seq 0 8)).2
                (foldl (relax x y dist) (distance, rest) (seq 0 8)).1.
Proof.
  change (bfs (S fuel) ((x, y, dist) :: rest) distance) with
    (if stale dist (distance !! Z.to_nat (y * Z.of_nat width + x))
     then bfs fuel rest distance
     else let '(distance', queue') :=
            foldl (relax x y dist) (distance, rest) (seq 0 8) in
          bfs fuel queue' distance').
  destruct (stale dist _); [reflexivity|].
  destruct (foldl _ _ _). reflexivity.
Qed.

(** The loop terminates, in a state where the queue is empty. *)
Lemma bfs_runs (distance : list Dist) :
  forall queue, bfsInv queue distance ->
  exists fuel distance', bfs fuel queue distance = Some distance' /\ bfsInv [] distance'.
Proof.
  remember (measure distance) as m eqn:Hm. revert distance Hm.
  induction m as [m IH] using (well_founded_induction lexLt_wf).
  intros distance -> queue.
  induction queue as [|[[x y] dist] rest IHq]; intros Hinv.
  - exists O, distance. split; [reflexivity|exact Hinv].
  - pose proof (bfs_pop x y dist rest distance Hinv) as Hpop.
    destruct (stale dist _) eqn:Hstale.
    + destruct (IHq Hpop) as (fuel & d' & Hrun & Hfinal).
      exists (S fuel), d'. split; [|exact Hfinal]. rewrite bfs_S, Hstale. exact Hrun.
    + cbv zeta in Hpop. destruct Hpop as [Hinv' Hmeas].
      assert (Hnext : exists fuel d',
                bfs fuel (foldl (relax x y dist) (distance, rest) (seq 0 8)).2
                         (foldl (relax x y dist) (distance, rest) (seq 0 8)).1
                = Some d' /\ bfsInv [] d').
      { destruct Hmeas as [Heq|Hlt].
        - rewrite Heq in Hinv' |- *. apply IHq, Hinv'.
        - apply (IH _ Hlt _ eq_refl _ Hinv'). }
      destruct Hnext as (fuel & d' & Hrun & Hfinal).
      exists (S fuel), d'. split; [|exact Hfinal]. rewrite bfs_S, Hstale.
      exact Hrun.
Qed.

Lemma bfs_fuel_mono (fuel fuel' : nat) (queue : list (Z * Z * Z))
    (distance distance' : list Dist) :
  bfs fuel queue distance = Some distance' -> (fuel <= fuel')%nat ->
  bfs fuel' queue distance = Some distance'.
Proof.
  revert fuel' queue distance.
  induction fuel as [|fuel IH]; intros fuel' queue distance Hrun Hle.
  - destruct queue as [|[[x y] d] rest]; [|discriminate Hrun].
    destruct fuel'; exact Hrun.
  - destruct queue as [|[[x y] d] rest]; [destruct fuel'; exact Hrun|].
    destruct fuel' as [|fuel']; [lia|]. rewrite bfs_S in Hrun |- *.
    destruct (stale d _); apply IH; first [exact Hrun|lia].
Qed.

Lemma index_coords (i : nat) :
  (i < size)%nat ->
  0 <= Z.of_nat (i mod width) < Z.of_nat width /\
  0 <= Z.of_nat (i / width) < Z.of_nat height /\
  cellAt (Z.of_nat (i mod width)) (Z.of_nat (i / width)) = Some i.
Proof.
  intros Hi. assert (Hw : (0 < width)%nat) by lia.
  pose proof (Nat.mod_upper_bound i width ltac:(lia)) as Hm.
  assert (Hd : (i / width < height)%nat) by (apply Nat.Div0.div_lt_upper_bound; lia).
  split; [lia|]. split; [lia|].
  rewrite cellAt_in_bounds by lia. f_equal.
  pose proof (Nat.div_mod_eq i width). lia.
Qed.

Lemma cellAt_coords (x y : Z) (n : nat) :
  cellAt x y = Some n ->
  Z.of_nat (n mod width) = x /\ Z.of_nat (n / width) = y.
Proof.
  intros Hc. destruct (cellAt_Some _ _ _ _ _ Hc) as (Hx & Hy & Hn & Hlt).
  assert (Hw : 0 < Z.of_nat width) by lia.
  rewrite Nat2Z.inj_mod, Nat2Z.inj_div, Hn. split.
  - rewrite Z.add_comm, Z.mod_add by lia. apply Z.mod_small. lia.
  - rewrite Z.add_comm, Z.div_add by lia. rewrite Z.div_small by lia. lia.
Qed.

Lemma initDistance_lookup (i : nat) :
  (i < size)%nat ->
  initDistance landMask rivers lakeMask size !! i
  = Some (if isWater i then At 0 else Unreached).
Proof.
  intros Hi. unfold initDistance. rewrite list_lookup_fmap.
  rewrite lookup_seq_lt by exact Hi. reflexivity.
Qed.

Lemma bfsInv_initial :
  bfsInv (initQueue landMask rivers lakeMask width size)
         (initDistance landMask rivers lakeMask size).
Proof.
  split; [constructor|].
  - unfold initDistance. rewrite length_map, length_seq. reflexivity.
  - intros i Hi Hw. rewrite initDistance_lookup, Hw by exact Hi. reflexivity.
  - intros i u Hi Hw.
    assert (Hlt : (i < size)%nat).
    { apply lookup_lt_Some in Hi. unfold initDistance in Hi.
      rewrite length_map, length_seq in Hi. exact Hi. }
    rewrite initDistance_lookup, Hw in Hi by exact Hlt. discriminate Hi.
  - intros x y d Hin. unfold initQueue in Hin.
    apply list_elem_of_fmap in Hin as (idx & [= -> -> ->] & Hidx).
    apply list_elem_of_filter in Hidx as [_ Hidx]. apply elem_of_seq in Hidx.
    destruct (index_coords idx ltac:(lia)) as (Hx & Hy & _). lia.
  - intros x y n Hc Hw. left. unfold initQueue.
    apply list_elem_of_fmap. exists n.
    destruct (cellAt_coords x y n Hc) as [-> ->]. split; [reflexivity|].
    apply list_elem_of_filter. split; [exact Hw|].
    apply elem_of_seq. destruct (cellAt_Some _ _ _ _ _ Hc) as (_ & _ & _ & Hlt). lia.
Qed.

(** Walking along one axis of the map. *)
Lemma interval_ind (P : Z -> Prop) (L a : Z) :
  0 <= a < L -> P a ->
  (forall z, 0 <= z < L -> 0 <= z + 1 < L -> P z -> P (z + 1)) ->
  (forall z, 0 <= z < L -> 0 <= z - 1 < L -> P z -> P (z - 1)) ->
  forall b, 0 <= b < L -> P b.
Proof.
  intros Ha HPa Hup Hdown b Hb.
  assert (Hu : forall k : nat, a + Z.of_nat k < L -> P (a + Z.of_nat k)).
  { induction k as [|k IH]; intros Hk.
    - rewrite Z.add_0_r. exact HPa.
    - replace (a + Z.of_nat (S k)) with (a + Z.of_nat k + 1) by lia.
      apply Hup; [lia|lia|]. apply IH. lia. }
  assert (Hd : forall k : nat, 0 <= a - Z.of_nat k -> P (a - Z.of_nat k)).
  { induction k as [|k IH]; intros Hk.
    - rewrite Z.sub_0_r. exact HPa.
    - replace (a - Z.of_nat (S k)) with (a - Z.of_nat k - 1) by lia.
      apply Hdown; [lia|lia|]. apply IH. lia. }
  destruct (Z.le_gt_cases a b) as [Hle|Hgt].
  - replace b with (a + Z.of_nat (Z.to_nat (b - a))) by lia. apply Hu. lia.
  - replace b with (a - Z.of_nat (Z.to_nat (a - b))) by lia. apply Hd. lia.
Qed.

(** When no finite distance is positive, water spreads to the whole map. *)
Lemma water_everywhere (distance : list Dist) (i0 : nat) :
  bfsInv [] distance ->
  (forall i u, distance !! i = Some (At u) -> u <= 0) ->
  (i0 < size)%nat -> isWater i0 = true ->
  forall i, (i < size)%nat -> isWater i = true.
Proof.
  intros [Hcore Hsrc] Hmax Hi0 Hw0.
  assert (Hstep : forall x y n d dx dy n',
            cellAt x y = Some n -> isWater n = true ->
            DX !! d = Some dx -> DY !! d = Some dy ->
            cellAt (x + dx) (y + dy) = Some n' -> isWater n' = true).
  { intros x y n d dx dy n' Hc Hw Hdx Hdy Hc'.
    destruct (Hsrc x y n Hc Hw) as [Hin|Hnb]; [inversion Hin|].
    destruct (Hnb d dx dy n' Hdx Hdy Hc') as [u Hu].
    destruct (isWater n') eqn:Hw'; [reflexivity|].
    pose proof (bfs_land _ _ Hcore n' u Hu Hw'). specialize (Hmax n' u Hu). lia. }
  destruct (index_coords i0 Hi0) as (Hx0 & Hy0 & Hc0).
  set (x0 := Z.of_nat (i0 mod width)) in *. set (y0 := Z.of_nat (i0 / width)) in *.
  assert (Hrow : forall x, 0 <= x < Z.of_nat width ->
            forall n, cellAt x y0 = Some n -> isWater n = true).
  { apply (interval_ind
             (fun x => forall n, cellAt x y0 = Some n -> isWater n = true)
             (Z.of_nat width) x0 Hx0).
    - intros n Hn. rewrite Hc0 in Hn. injection Hn as <-. exact Hw0.
    - intros z Hz Hz1 IH n Hn.
      apply (Hstep z y0 _ 2%nat 1 0 n (cellAt_in_bounds _ _ z y0 Hz Hy0)).
      + apply IH. apply cellAt_in_bounds; assumption.
      + reflexivity.
      + reflexivity.
      + rewrite Z.add_0_r. exact Hn.
    - intros z Hz Hz1 IH n Hn.
      apply (Hstep z y0 _ 6%nat (-1) 0 n (cellAt_in_bounds _ _ z y0 Hz Hy0)).
      + apply IH. apply cellAt_in_bounds; assumption.
      + reflexivity.
      + reflexivity.
      + rewrite Z.add_0_r. exact Hn. }
  assert (Hcol : forall x1, 0 <= x1 < Z.of_nat width ->
            forall y, 0 <= y < Z.of_nat height ->
            forall n, cellAt x1 y = Some n -> isWater n = true).
  { intros x1 Hx.
    apply (interval_ind
             (fun y => forall n, cellAt x1 y = Some n -> isWater n = true)
             (Z.of_nat height) y0 Hy0).
    - apply Hrow. exact Hx.
    - intros z Hz Hz1 IH n Hn.
      apply (Hstep x1 z _ 4%nat 0 1 n (cellAt_in_bounds _ _ x1 z Hx Hz)).
      + apply IH. apply cellAt_in_bounds; assumption.
      + reflexivity.
      + reflexivity.
      + rewrite Z.add_0_r. exact Hn.
    - intros z Hz Hz1 IH n Hn.
      apply (Hstep x1 z _ 0%nat 0 (-1) n (cellAt_in_bounds _ _ x1 z Hx Hz)).
      + apply IH. apply cellAt_in_bounds; assumption.
      + reflexivity.
      + reflexivity.
      + rewrite Z.add_0_r. exact Hn. }
  intros i Hi. destruct (index_coords i Hi) as (Hx & Hy & Hc).
  apply (Hcol _ Hx _ Hy i Hc).
Qed.

Lemma maxDist_ge_aux (distance : list Dist) (m : Z) :
  let r := foldl (fun m d => match d with At u => Z.max m u | Unreached => m end)
                 m distance in
  m <= r /\ forall i u, distance !! i = Some (At u) -> u <= r.
Proof.
  revert m. induction distance as [|d l IH]; intros m; simpl.
  - split; [lia|]. intros i u Hi. discriminate Hi.
  - destruct (IH (match d with At u => Z.max m u | Unreached => m end)) as [H1 H2].
    split; [destruct d; lia|].
    intros [|i] u Hi; simpl in Hi.
    + injection Hi as ->. lia.
    + apply (H2 i u Hi).
Qed.

Lemma maxDist_ge (distance : list Dist) (i : nat) (u : Z) :
  distance !! i = Some (At u) -> u <= maxDist distance.
Proof. apply (maxDist_ge_aux distance 0). Qed.

End WaterDistanceFacts.

Section WaterDistanceResult.
Import Hydrology.

Lemma normalize_range (m u : Z) :
  0 <= u -> exists q, normalize m (At u) = Fin q /\ (0 <= q)%Q /\ (q <= 1)%Q /\
                      (u = 0 -> (q == 0)%Q).
Proof.
  intros Hu. eexists. split; [reflexivity|].
  assert (H0 : (0 <= u # Z.to_pos m)%Q) by (unfold Qle; simpl; lia).
  split; [apply Q.min_glb; [discriminate|exact H0]|].
  split; [apply Q.le_min_l|].
  intros ->. rewrite Q.min_r by discriminate. reflexivity.
Qed.


(** The search terminates on every input. *)
Lemma calculateWaterDistance_terminates
    (landMask rivers lakeMask : list Z) (width height : nat) :
  exists fuel result,
    forall fuel', (fuel <= fuel')%nat ->
      calculateWaterDistance landMask rivers lakeMask width height fuel' = Some result.
Proof.
  destruct (bfs_runs landMask rivers lakeMask width height _ _
              (bfsInv_initial landMask rivers lakeMask width height))
    as (fuel & D & Hrun & _).
  exists fuel.
  exists (if 0 <? maxDist D then List.map (normalize (maxDist D)) D
          else List.map toNum D).
  intros fuel' Hle. unfold calculateWaterDistance.
  rewrite (bfs_fuel_mono _ _ _ _ _ _ _ Hrun Hle). destruct (0 <? maxDist D); reflexivity.
Qed.

End WaterDistanceResult.


